(** * Example files: the Go worker pool, Fibonacci, factorial and division

    A shallow embedding of the functions of the example files that the
    specification speaks about:

    - the worker pool of the second Go file ([worker] and the pool part
      of [main]), as a transition system over buffered channels, one
      step per goroutine action, with every interleaving a schedule;
    - the Fibonacci generators of the TypeScript, JavaScript, Ruby and
      Go files;
    - the factorial functions of the JavaScript and Ruby files;
    - the division helpers of the TypeScript and Go files.

    Go's [int] is taken as the 64-bit two's complement integer, JavaScript
    and TypeScript [number] and Go's [float64] as the kernel's binary64
    floats, Ruby's [Integer] as [Z]. *)

From Stdlib Require Import ZArith String Floats.
From stdpp Require Import base list gmap strings pretty.

Local Open Scope Z_scope.

(** ** Part I: definitions *)

(** *** Numbers *)

Module GoInt.

(** Go's [int] on a 64-bit platform: arithmetic wraps around. *)
Definition min_int : Z := - 2 ^ 63.
Definition max_int : Z := 2 ^ 63 - 1.

Definition wrap (z : Z) : Z := (z + 2 ^ 63) mod 2 ^ 64 - 2 ^ 63.

Definition add (a b : Z) : Z := wrap (a + b).
Definition mul (a b : Z) : Z := wrap (a * b).

Definition in_range (z : Z) : Prop := min_int <= z <= max_int.

End GoInt.

Module Number.

(** A JavaScript [number] (and a Go [float64]) is a binary64 float. *)
Definition number : Set := float.

(** The number an integer literal or an integer argument denotes: the
    nearest binary64 value. *)
Definition of_Z (z : Z) : number :=
  SF2Prim (binary_normalize prec emax z 0 false).

(** The exact value of a number that holds an integer; [None] for
    fractions, infinities and NaN. *)
Definition to_Z (x : number) : option Z :=
  match Prim2SF x with
  | S754_zero _ => Some 0
  | S754_finite s m e =>
      if 0 <=? e then Some ((if s then -1 else 1) * Z.pos m * 2 ^ e)
      else if Z.pos m mod 2 ^ (- e) =? 0
           then Some ((if s then -1 else 1) * (Z.pos m / 2 ^ (- e)))
           else None
  | _ => None
  end.

End Number.

(** *** Fibonacci *)

(** The loop shared by the TypeScript, JavaScript and Ruby sources,
    [while sequence.length < n: sequence.push(last + before_last)], for a
    whole number [n].  [missing] is what reading before the start of the
    array gives: JavaScript's [undefined] adds up to NaN, Ruby's [nil]
    raises ([None]).  The result is [None] too when the fuel runs out. *)
Section WhilePush.

Context {A : Type} (plus : A → A → A) (missing : option A).

Definition from_end (sequence : list A) (back : nat) : option A :=
  if decide (back ≤ length sequence)%nat
  then sequence !! (length sequence - back)%nat
  else missing.

Fixpoint while_push (fuel : nat) (n : Z) (sequence : list A)
  : option (list A) :=
  if Z.of_nat (length sequence) <? n then
    match fuel with
    | O => None
    | S fuel' =>
        match from_end sequence 1, from_end sequence 2 with
        | Some a, Some b => while_push fuel' n (sequence ++ [plus a b])
        | _, _ => None
        end
    end
  else Some sequence.

End WhilePush.

Module TS.

(** [function fibonacci(n: number): number[]] *)
Definition fibonacci (n : Z) : option (list Number.number) :=
  if n <=? 0 then Some []
  else if n =? 1 then Some [0%float]
  else while_push PrimFloat.add (Some nan) (Z.to_nat n) n [0%float; 1%float].

(** [type Result<T>] *)
Inductive Result (T : Type) : Type :=
| Success (data : T)
| Failure (error : string).

Arguments Success {T} data.
Arguments Failure {T} error.

(** [function divide(a: number, b: number): Result<number>] *)
Definition divide (a b : Number.number) : Result Number.number :=
  if PrimFloat.eqb b 0 then Failure "Division by zero"
  else Success (PrimFloat.div a b).

End TS.

Module JS.

(** [function fibonacci(n)] *)
Definition fibonacci (n : Z) : option (list Number.number) :=
  if n <=? 0 then Some []
  else if n =? 1 then Some [0%float]
  else while_push PrimFloat.add (Some nan) (Z.to_nat n) n [0%float; 1%float].

(** [function factorial(n)], for a whole number [n]: one unit of fuel
    per recursive call.  The argument is kept as an integer, which is
    what the double [n] holds below 2^53; the products are doubles. *)
Fixpoint factorial_fuel (fuel : nat) (n : Z) : option Number.number :=
  if n <=? 1 then Some 1%float
  else match fuel with
       | O => None
       | S fuel' =>
           match factorial_fuel fuel' (n - 1) with
           | Some r => Some (PrimFloat.mul (Number.of_Z n) r)
           | None => None
           end
       end.

Definition factorial (n : Z) : option Number.number :=
  factorial_fuel (Z.to_nat n) n.

End JS.

Module MathUtils.

(** [def self.fibonacci(n)] *)
Definition fibonacci (n : Z) : option (list Z) :=
  if n <=? 0 then Some []
  else if n =? 1 then Some [0]
  else while_push Z.add None (Z.to_nat n) n [0; 1].

(** [enum.reduce(:op)]: [nil] on an empty range, else the fold from its
    first element. *)
Definition reduce (op : Z → Z → Z) (range : list Z) : option Z :=
  match range with
  | [] => None
  | first :: rest => Some (foldl op first rest)
  end.

(** [def self.factorial(n)] *)
Definition factorial (n : Z) : option Z :=
  if n <=? 1 then Some 1
  else reduce Z.mul (seqZ 1 n).

End MathUtils.

Module Go.

(** The loop [for i := 2; i < n; i++ { sequence[i] = sequence[i-1] +
    sequence[i-2] }] with [count] iterations to go; an index out of range
    is a run-time panic ([None]). *)
Fixpoint fill (count i : nat) (sequence : list Z) : option (list Z) :=
  match count with
  | O => Some sequence
  | S count' =>
      match sequence !! (i - 1)%nat, sequence !! (i - 2)%nat with
      | Some a, Some b =>
          if decide (i < length sequence)%nat
          then fill count' (S i) (<[i := GoInt.add a b]> sequence)
          else None
      | _, _ => None
      end
  end.

(** [func Fibonacci(n int) []int] *)
Definition Fibonacci (n : Z) : option (list Z) :=
  if n <=? 0 then Some []
  else if n =? 1 then Some [0]
  else
    fill (Z.to_nat n - 2) 2
         (<[1%nat := 1]> (<[0%nat := 0]> (replicate (Z.to_nat n) 0))).

(** [func divide(a, b float64) (float64, error)]; the error is its
    message, [None] for [nil]. *)
Definition divide (a b : Number.number) : Number.number * option string :=
  if PrimFloat.eqb b 0 then (0%float, Some "division by zero"%string)
  else (PrimFloat.div a b, None).

(** [var ErrDivisionByZero = errors.New("division by zero")] *)
Definition ErrDivisionByZero : string := "division by zero"%string.

(** [func SafeDivide(a, b float64) (float64, error)] *)
Definition SafeDivide (a b : Number.number) : Number.number * option string :=
  if PrimFloat.eqb b 0 then (0%float, Some ErrDivisionByZero)
  else (PrimFloat.div a b, None).

End Go.

(** *** What the claims say the functions compute *)

(** The Fibonacci numbers: 0, 1, and then the sum of the previous two. *)
Fixpoint fib (k : nat) : Z :=
  match k with
  | O => 0
  | S k' => match k' with O => 1 | S k'' => fib k' + fib k'' end
  end.

(** The sequence the claim on [fibonacci] describes: empty for [n ≤ 0],
    [0] alone for [n = 1], and otherwise the first [n] Fibonacci
    numbers. *)
Definition first_fibonacci (n : Z) : list Z :=
  if n <=? 0 then []
  else if n =? 1 then [0]
  else fib <$> seq 0 (Z.to_nat n).

(** The same numbers, computed in linear time. *)
Fixpoint fib_pair (k : nat) : Z * Z :=
  match k with
  | O => (0, 1)
  | S k' => let '(a, b) := fib_pair k' in (b, a + b)
  end.

(** The product 1·2·…·k. *)
Fixpoint product_upto (k : nat) : Z :=
  match k with
  | O => 1
  | S k' => product_upto k' * Z.of_nat (S k')
  end.

(** The value the claim on [factorial] describes: 1 for [n ≤ 1], and
    1·2·…·n from 2 on. *)
Definition product_or_one (n : Z) : Z :=
  if n <=? 1 then 1 else product_upto (Z.to_nat n).

(** *** Go channels and goroutine outcomes *)

(** What one action of a goroutine does. *)
Inductive outcome (A : Type) : Type :=
| Ok (a : A)            (* the action completes *)
| Blocked               (* the goroutine cannot move now *)
| Panic (msg : string). (* a run-time panic: the program dies *)

Arguments Ok {A} a.
Arguments Blocked {A}.
Arguments Panic {A} msg.

(** A buffered channel of [int]: the queued values (oldest first), the
    capacity given to [make], and whether [close] was called. *)
Record chan : Type := Chan {
  buf : list Z;
  cap : Z;
  closed : bool
}.

(** What the run-time system of Go checks in [make] for a [chan int] on
    a 64-bit Linux: the buffer, [elem_size] bytes for each element, has
    to fit into the [max_alloc] bytes the allocator can address less the
    [hchan_size] bytes of the channel's header (96 bytes; 104 in recent
    versions of Go, where the largest size is one less). *)
Definition elem_size : Z := 8.
Definition max_alloc : Z := 2 ^ 48.
Definition hchan_size : Z := 96.

(** The largest size [make] accepts for a [chan int]. *)
Definition max_chan_size : Z := (max_alloc - hchan_size) / elem_size.

(** [make(chan int, size)]: a size that is negative, or whose buffer is
    beyond what the allocator can address, is the run-time panic
    [makechan: size out of range].  (A size within these bounds for
    which the machine has no memory left ends the program with a fatal
    error of the allocator; the model has no memory limit, so what it
    says on a [make] that returns is about sizes the machine can
    serve.) *)
Definition make_chan (size : Z) : outcome chan :=
  if (size <? 0) || (max_alloc - hchan_size <? elem_size * size)
  then Panic "makechan: size out of range"
  else Ok (Chan [] size false).

(** [c <- v] on a buffered channel, the only kind the source makes:
    panics on a closed channel, blocks while the buffer is full.  (On a
    channel of capacity zero Go hands the value to a receiver that waits
    for it; here such a send blocks in every state, so what is stated
    for capacity zero is stated about no run at all.) *)
Definition chan_send (c : chan) (v : Z) : outcome chan :=
  if closed c then Panic "send on closed channel"
  else if Z.of_nat (length (buf c)) <? cap c
       then Ok (Chan (buf c ++ [v]) (cap c) (closed c))
       else Blocked.

(** One iteration of [for v := range c]: the oldest queued value if
    there is one; on an empty channel the end of the loop ([None]) when
    the channel is closed, and blocking otherwise. *)
Definition chan_recv (c : chan) : outcome (option Z * chan) :=
  match buf c with
  | v :: rest => Ok (Some v, Chan rest (cap c) (closed c))
  | [] => if closed c then Ok (None, c) else Blocked
  end.

(** [close(c)]: closing twice is a run-time panic. *)
Definition chan_close (c : chan) : outcome chan :=
  if closed c then Panic "close of closed channel"
  else Ok (Chan (buf c) (cap c) true).

(** *** The worker pool *)

(** What calling a Go function on a job does: it returns or it panics. *)
Inductive call : Type :=
| Returns (v : Z)
| Panics (reason : string).

(** The expression the worker computes for a job, [job * 2], on Go's
    [int]. *)
Definition double (job : Z) : Z := GoInt.mul job 2.

(** A transform that always returns, as [double] does. *)
Definition total (f : Z -> Z) : Z -> call := fun job => Returns (f job).

(** Where a worker goroutine stands:
    at [for job := range jobs], at [results <- v], or returned (after
    its deferred [wg.Done()]). *)
Inductive wstate : Type :=
| WRange
| WSend (v : Z)
| WReturned.

(** Where [main] stands in the pool part of its body: in the submit loop
    with the jobs still to send (the [close(jobs)] comes when none is
    left), at the [go func() {...}()], in [for r := range results], or
    past it. *)
Inductive mstate : Type :=
| MSubmit (pending : list Z)
| MGo
| MRange
| MExit.

(** The anonymous goroutine [wg.Wait(); close(results)]. *)
Inductive cstate : Type :=
| CNotStarted
| CWait
| CClose
| CExit.

Record pool : Type := Pool {
  jobs : chan;
  results : chan;
  wg : nat;
  workers : list wstate;
  main_pc : mstate;
  closer : cstate;
  workerResults : list Z;
  (* ghost: the jobs taken from the queue, in the order they were taken;
     the worker that takes a job computes its value in the same action,
     so this is also the list of the arguments of the calls, but not the
     order in which two workers get to compute *)
  invoked : list Z
}.

Definition set_jobs (c : chan) (s : pool) : pool :=
  Pool c (results s) (wg s) (workers s) (main_pc s) (closer s)
       (workerResults s) (invoked s).
Definition set_results (c : chan) (s : pool) : pool :=
  Pool (jobs s) c (wg s) (workers s) (main_pc s) (closer s)
       (workerResults s) (invoked s).
Definition set_wg (n : nat) (s : pool) : pool :=
  Pool (jobs s) (results s) n (workers s) (main_pc s) (closer s)
       (workerResults s) (invoked s).
Definition set_worker (i : nat) (w : wstate) (s : pool) : pool :=
  Pool (jobs s) (results s) (wg s) (<[i := w]> (workers s)) (main_pc s)
       (closer s) (workerResults s) (invoked s).
Definition set_main (m : mstate) (s : pool) : pool :=
  Pool (jobs s) (results s) (wg s) (workers s) m (closer s)
       (workerResults s) (invoked s).
Definition set_closer (c : cstate) (s : pool) : pool :=
  Pool (jobs s) (results s) (wg s) (workers s) (main_pc s) c
       (workerResults s) (invoked s).
Definition push_result (r : Z) (s : pool) : pool :=
  Pool (jobs s) (results s) (wg s) (workers s) (main_pc s) (closer s)
       (workerResults s ++ [r]) (invoked s).
(* ghost: job [j] was taken from the queue *)
Definition log_call (j : Z) (s : pool) : pool :=
  Pool (jobs s) (results s) (wg s) (workers s) (main_pc s) (closer s)
       (workerResults s) (invoked s ++ [j]).

(** [wg.Done()]: a counter below zero is a run-time panic. *)
Definition wg_done (s : pool) : outcome pool :=
  match wg s with
  | O => Panic "sync: negative WaitGroup counter"
  | S n => Ok (set_wg n s)
  end.

(** One action of worker [i] (worker [i + 1] of the source) running
    [defer wg.Done(); for job := range jobs { results <- transform(job) }]:
    it takes a job and computes its value (the source computes
    [job * 2], which is [total double] here and touches nothing shared,
    so that taking and computing are one action), or sends the value it
    holds, or leaves the loop and runs its deferred [wg.Done()] (a closed
    and empty queue stays so, which makes the two one action).  The
    worker has no [recover]. *)
Definition worker (transform : Z -> call) (i : nat) (s : pool) : outcome pool :=
  match workers s !! i with
  | Some WRange =>
      match chan_recv (jobs s) with
      | Ok (Some job, c) =>
          match transform job with
          | Returns v => Ok (set_worker i (WSend v) (log_call job (set_jobs c s)))
          | Panics reason => Panic reason
          end
      | Ok (None, _) =>
          match wg_done s with
          | Ok s' => Ok (set_worker i WReturned s')
          | Blocked => Blocked
          | Panic msg => Panic msg
          end
      | Blocked => Blocked
      | Panic msg => Panic msg
      end
  | Some (WSend v) =>
      match chan_send (results s) v with
      | Ok c => Ok (set_worker i WRange (set_results c s))
      | Blocked => Blocked
      | Panic msg => Panic msg
      end
  | Some WReturned | None => Blocked
  end.

(** One action of the goroutine [wg.Wait(); close(results)]. *)
Definition closer_step (s : pool) : outcome pool :=
  match closer s with
  | CWait => match wg s with O => Ok (set_closer CClose s) | S _ => Blocked end
  | CClose =>
      match chan_close (results s) with
      | Ok c => Ok (set_closer CExit (set_results c s))
      | Blocked => Blocked
      | Panic msg => Panic msg
      end
  | CNotStarted | CExit => Blocked
  end.

(** One action of [main] in
    [for j ... { jobs <- j }; close(jobs); go func() {...}();
     for r := range results { workerResults = append(workerResults, r) }]. *)
Definition main_step (s : pool) : outcome pool :=
  match main_pc s with
  | MSubmit (j :: rest) =>
      match chan_send (jobs s) j with
      | Ok c => Ok (set_main (MSubmit rest) (set_jobs c s))
      | Blocked => Blocked
      | Panic msg => Panic msg
      end
  | MSubmit [] =>
      match chan_close (jobs s) with
      | Ok c => Ok (set_main MGo (set_jobs c s))
      | Blocked => Blocked
      | Panic msg => Panic msg
      end
  | MGo => Ok (set_main MRange (set_closer CWait s))
  | MRange =>
      match chan_recv (results s) with
      | Ok (Some r, c) => Ok (push_result r (set_results c s))
      | Ok (None, _) => Ok (set_main MExit s)
      | Blocked => Blocked
      | Panic msg => Panic msg
      end
  | MExit => Blocked
  end.

(** The goroutines of the pool. *)
Inductive actor : Type :=
| Main
| Worker (i : nat)
| Closer.

Definition step (transform : Z -> call) (a : actor) (s : pool) : outcome pool :=
  match a with
  | Main => main_step s
  | Worker i => worker transform i s
  | Closer => closer_step s
  end.

(** An interleaving is the list of goroutines in the order they move. *)
Fixpoint run (transform : Z -> call) (sched : list actor) (s : pool)
  : outcome pool :=
  match sched with
  | [] => Ok s
  | a :: rest =>
      match step transform a s with
      | Ok s' => run transform rest s'
      | Blocked => Blocked
      | Panic msg => Panic msg
      end
  end.

(** The start of the pool part of [main], with the literals of the source
    as arguments:
    [jobs := make(chan int, qcap); results := make(chan int, rcap);
     for w := 1; w <= n; w++ { wg.Add(1); go worker(w, jobs, results, &wg) }]
    and then the submit loop over [js].  The workers cannot move before
    the first job is sent, so starting them all at once loses no
    interleaving.  A channel of capacity zero passes a value only when
    sender and receiver meet; the source makes buffered channels only and
    [chan_send] leaves that meeting out, so the statements on progress
    ask for capacities of at least one. *)
Definition new_pool (n qcap rcap : Z) (js : list Z) : outcome pool :=
  match make_chan qcap with
  | Ok jc =>
      match make_chan rcap with
      | Ok rc =>
          Ok (Pool jc rc (Z.to_nat n) (replicate (Z.to_nat n) WRange)
                   (MSubmit js) CNotStarted [] [])
      | Blocked => Blocked
      | Panic msg => Panic msg
      end
  | Blocked => Blocked
  | Panic msg => Panic msg
  end.

(** The pool as [main] builds it: three workers, both channels of
    capacity five, the jobs one to five. *)
Definition main_pool : outcome pool := new_pool 3 5 5 [1; 2; 3; 4; 5].


(** *** What is read off a pool state *)

Local Close Scope Z_scope.

(** The value a worker holds between computing it and sending it. *)
Definition sending (w : wstate) : option Z :=
  match w with WSend v => Some v | _ => None end.

Definition in_flight (ws : list wstate) : list Z := omap sending ws.

Definition is_live (w : wstate) : nat :=
  match w with WReturned => 0 | _ => 1 end.

(** The workers that have not returned. *)
Definition live (ws : list wstate) : nat := sum_list_with is_live ws.

Definition pending (m : mstate) : list Z :=
  match m with MSubmit p => p | _ => [] end.

Definition submitting (m : mstate) : bool :=
  match m with MSubmit _ => true | _ => false end.

(** The steps a state still has in it, at most: every job is weighed by
    the stations it has to pass (sent, received, emitted, collected),
    every goroutine by the control points before its end. *)
Definition wweight (w : wstate) : nat :=
  match w with WRange => 1 | WSend _ => 3 | WReturned => 0 end.

Definition mweight (m : mstate) : nat :=
  match m with
  | MSubmit p => 4 * length p + 5
  | MGo => 4
  | MRange => 1
  | MExit => 0
  end.

Definition cweight (c : cstate) : nat :=
  match c with CWait => 2 | CClose => 1 | CNotStarted | CExit => 0 end.

Definition fuel (s : pool) : nat :=
  mweight (main_pc s) + 3 * length (buf (jobs s))
  + sum_list_with wweight (workers s) + length (buf (results s))
  + cweight (closer s).

(** The invariant of the pool started with [N] workers on the jobs [js],
    for a transform that returns [f job]. *)
Record pool_inv (f : Z → Z) (N : nat) (js : list Z) (s : pool) : Prop := {
  inv_workers : length (workers s) = N;
  inv_wg : wg s = live (workers s);
  inv_results :
    workerResults s ++ buf (results s) ++ in_flight (workers s)
      ++ (f <$> (buf (jobs s) ++ pending (main_pc s))) ≡ₚ f <$> js;
  inv_invoked : invoked s ++ buf (jobs s) ++ pending (main_pc s) ≡ₚ js;
  inv_jobs_closed : closed (jobs s) = negb (submitting (main_pc s));
  inv_returned :
    WReturned ∈ workers s → closed (jobs s) = true ∧ buf (jobs s) = [];
  inv_closer :
    match closer s with
    | CNotStarted =>
        (main_pc s = MGo ∨ submitting (main_pc s) = true)
        ∧ closed (results s) = false
    | CWait => main_pc s = MRange ∧ closed (results s) = false
    | CClose => main_pc s = MRange ∧ closed (results s) = false ∧ wg s = 0
    | CExit =>
        (main_pc s = MRange ∨ main_pc s = MExit)
        ∧ closed (results s) = true ∧ wg s = 0
    end;
  inv_exit : main_pc s = MExit → closer s = CExit ∧ buf (results s) = []
}.

(** *** Some interleavings of [main]'s pool

    [main] sends the five jobs, closes the queue and starts the closing
    goroutine in its first seven actions. *)
Definition submit_all : list actor := replicate 7 Main.

(** Worker 0 takes and emits every job. *)
Definition one_worker_works : list actor :=
  submit_all ++ mjoin (replicate 5 [Worker 0; Worker 0]).

(** ... then the three workers return. *)
Definition workers_return : list actor :=
  one_worker_works ++ [Worker 0; Worker 1; Worker 2].

(** ... then the closing goroutine runs and [main] collects. *)
Definition in_order : list actor :=
  workers_return ++ [Closer; Closer] ++ replicate 6 Main.

(** Workers 0 and 1 take the first two jobs, and worker 1 emits first. *)
Definition overtaking : list actor :=
  submit_all ++ [Worker 0; Worker 1; Worker 1; Worker 0]
  ++ mjoin (replicate 3 [Worker 0; Worker 0])
  ++ [Worker 0; Worker 1; Worker 2; Closer; Closer] ++ replicate 6 Main.

(** With fourteen jobs instead of five: worker 0 fills [results], the
    three workers each hold a value they cannot send, and [main] fills
    [jobs] again. *)
Definition fill_both : list actor :=
  replicate 5 Main ++ mjoin (replicate 5 [Worker 0; Worker 0])
  ++ replicate 5 Main ++ [Worker 0; Worker 1; Worker 2] ++ replicate 3 Main.

(** *** Further functions of the second Go file *)

Local Open Scope Z_scope.

Module GoShowcase.

Section Stack.

Context {T : Type} (zero : T).

(** [type Stack[T any] struct { items []T }] *)
Record Stack : Type := MkStack { items : list T }.

(** [func (s *Stack[T]) Push(item T)] *)
Definition Push (s : Stack) (item : T) : Stack :=
  MkStack (items s ++ [item]).

(** [func (s *Stack[T]) Pop() (T, bool)], with the stack it leaves. *)
Definition Pop (s : Stack) : T * bool * Stack :=
  if decide (length (items s) = 0%nat) then (zero, false, s)
  else
    (default zero (items s !! (length (items s) - 1)%nat), true,
     MkStack (take (length (items s) - 1)%nat (items s))).

(** [k] calls of [Pop] in a row: what they return, and the stack left. *)
Fixpoint pops (k : nat) (s : Stack) : list (T * bool) * Stack :=
  match k with
  | O => ([], s)
  | S k' =>
      let '(item, ok, s') := Pop s in
      let '(rest, s'') := pops k' s' in
      ((item, ok) :: rest, s'')
  end.

End Stack.

Arguments Stack T : clear implicits.
Arguments MkStack {T} items.

(** [func Sum[T Number](numbers []T) T], for the [+] and the zero value
    of [T]. *)
Definition Sum {T : Type} (plus : T → T → T) (zero : T) (numbers : list T)
  : T :=
  foldl plus zero numbers.

(** [func createCounter() func() int]: the closure is the variable
    [count] it captures; a call returns the value and the new [count]. *)
Definition createCounter : Z := 0.

Definition counter (count : Z) : Z * Z :=
  let count' := GoInt.add count 1 in (count', count').

(** [k] calls of one closure in a row: the values returned. *)
Fixpoint counter_calls (k : nat) (count : Z) : list Z :=
  match k with
  | O => []
  | S k' => let '(v, count') := counter count in v :: counter_calls k' count'
  end.

(** A loop [for i, n := range numbers { dst[i] = g(n) }], from index
    [i] on. *)
Fixpoint assign_each {A B : Type} (g : A → B) (i : nat) (numbers : list A)
    (dst : list B) : list B :=
  match numbers with
  | [] => dst
  | n :: rest => assign_each g (S i) rest (<[i := g n]> dst)
  end.

(** [func processNumbers(numbers []int) map[string][]int]; [%] is Go's
    remainder, which truncates. *)
Definition processNumbers (numbers : list Z) : gmap string (list Z) :=
  let evens :=
    foldl (λ evens n, if Z.rem n 2 =? 0 then evens ++ [n] else evens)
          [] numbers in
  let squared :=
    assign_each (λ n, GoInt.mul n n) 0 numbers
                (replicate (length numbers) 0) in
  let doubled :=
    assign_each (λ n, GoInt.mul n 2) 0 numbers
                (replicate (length numbers) 0) in
  <["doubled"%string := doubled]>
    (<["squared"%string := squared]> (<["evens"%string := evens]> ∅)).

End GoShowcase.

(** *** Functions of the first Ruby file *)

Module RubyShowcase.

(** The values the enumerator
    [a, b = 0, 1; loop { yielder << a; a, b = b, a + b }] yields first. *)
Fixpoint yields (k : nat) (a b : Z) : list Z :=
  match k with
  | O => []
  | S k' => a :: yields k' b (a + b)
  end.

(** [fibonacci.take(n).to_a]: [take] raises [ArgumentError] on a
    negative size ([None]). *)
Definition fibonacci_take (n : Z) : option (list Z) :=
  if n <? 0 then None else Some (yields (Z.to_nat n) 0 1).

End RubyShowcase.

Local Close Scope Z_scope.

(** *** The query builder of the first Ruby file *)

Module QueryBuilder.

(** The instance variables [@conditions], [@order] and [@limit]; [nil]
    is [None].  Conditions and fields are strings, limits integers. *)
Record t : Type := Make {
  at_conditions : list string;
  at_order : option string;
  at_limit : option Z
}.

(** [def initialize] *)
Definition new : t := Make [] None None.

(** [def where(condition)]: the receiver, changed, is what it returns. *)
Definition where_ (condition : string) (q : t) : t :=
  Make (at_conditions q ++ [condition]) (at_order q) (at_limit q).

(** [def order_by(field)] *)
Definition order_by (field : string) (q : t) : t :=
  Make (at_conditions q) (Some field) (at_limit q).

(** [def limit(n)] *)
Definition limit (n : Z) (q : t) : t :=
  Make (at_conditions q) (at_order q) (Some n).

(** [def to_query]; [Integer#to_s] is the decimal numeral. *)
Definition to_query (q : t) : string :=
  let query := "SELECT * FROM table"%string in
  let query :=
    match at_conditions q with
    | [] => query
    | _ => query +:+ " WHERE " +:+ String.concat " AND " (at_conditions q)
    end in
  let query :=
    match at_order q with
    | Some field => query +:+ " ORDER BY " +:+ field
    | None => query
    end in
  match at_limit q with
  | Some n => query +:+ " LIMIT " +:+ pretty n
  | None => query
  end.

(** One call of a chain such as
    [QueryBuilder.new.where(...).where(...).order_by(...).limit(...)]. *)
Inductive call : Type :=
| Where (condition : string)
| OrderBy (field : string)
| Limit (n : Z).

Definition send (q : t) (c : call) : t :=
  match c with
  | Where condition => where_ condition q
  | OrderBy field => order_by field q
  | Limit n => limit n q
  end.

Definition chain (calls : list call) : t := foldl send new calls.

Definition wheres (calls : list call) : list string :=
  omap (λ c, match c with Where x => Some x | _ => None end) calls.
Definition order_bys (calls : list call) : list string :=
  omap (λ c, match c with OrderBy x => Some x | _ => None end) calls.
Definition limits (calls : list call) : list Z :=
  omap (λ c, match c with Limit x => Some x | _ => None end) calls.

End QueryBuilder.

(** *** The container of the TypeScript showcase file *)

Module Container.

Section Container.

(** [K] is the ids as a JavaScript [Map] tells keys apart, [T] the items,
    [id] the field [item.id]. *)
Context {K : Type} `{EqDecision K} {T : Type} (id : T → K).

(** [private items: Map<number, T>]: the entries in insertion order. *)
Definition items : Type := list (K * T).

(** [new Map()] *)
Definition empty : items := [].

(** [Map.prototype.set]: the value of an entry that is there is replaced
    where it stands, a new entry goes to the end. *)
Fixpoint map_set (k : K) (v : T) (m : items) : items :=
  match m with
  | [] => [(k, v)]
  | (k', v') :: rest =>
      if decide (k' = k) then (k', v) :: rest
      else (k', v') :: map_set k v rest
  end.

(** [Map.prototype.get]: [undefined] is [None]. *)
Fixpoint map_get (k : K) (m : items) : option T :=
  match m with
  | [] => None
  | (k', v') :: rest => if decide (k' = k) then Some v' else map_get k rest
  end.

(** [add(item: T): void] *)
Definition add (item : T) (c : items) : items := map_set (id item) item c.

(** [get(id: number): T | undefined] *)
Definition get (i : K) (c : items) : option T := map_get i c.

(** [getAll(): T[]] *)
Definition getAll (c : items) : list T := snd <$> c.

End Container.

End Container.

(** *** The Fibonacci goroutine of the second Go file *)

Module Generator.

Local Open Scope Z_scope.

(** Where the goroutine [fibonacci(n, ch)] stands: at the head of its
    loop with its variables [i], [a] and [b], or returned (after
    [close(ch)]). *)
Inductive pstate : Type :=
| PLoop (i a b : Z)
| PReturned.

(** Where [main] stands: in [for n := range ch], or past it. *)
Inductive rstate : Type :=
| RRange
| RExit.

Record state : Type := State {
  ch : chan;
  producer : pstate;
  reader : rstate;
  fibList : list Z
}.

(** One action of
    [a, b := 0, 1; for i := 0; i < n; i++ { ch <- a; a, b = b, a+b };
     close(ch)]. *)
Definition fibonacci (n : Z) (s : state) : outcome state :=
  match producer s with
  | PLoop i a b =>
      if i <? n then
        match chan_send (ch s) a with
        | Ok c =>
            Ok (State c (PLoop (GoInt.add i 1) b (GoInt.add a b))
                      (reader s) (fibList s))
        | Blocked => Blocked
        | Panic msg => Panic msg
        end
      else
        match chan_close (ch s) with
        | Ok c => Ok (State c PReturned (reader s) (fibList s))
        | Blocked => Blocked
        | Panic msg => Panic msg
        end
  | PReturned => Blocked
  end.

(** One action of [main] in
    [for n := range ch { fibList = append(fibList, n) }]. *)
Definition main_step (s : state) : outcome state :=
  match reader s with
  | RRange =>
      match chan_recv (ch s) with
      | Ok (Some v, c) => Ok (State c (producer s) RRange (fibList s ++ [v]))
      | Ok (None, _) => Ok (State (ch s) (producer s) RExit (fibList s))
      | Blocked => Blocked
      | Panic msg => Panic msg
      end
  | RExit => Blocked
  end.

Inductive actor : Type :=
| Main
| Fib.

Definition step (n : Z) (a : actor) (s : state) : outcome state :=
  match a with
  | Main => main_step s
  | Fib => fibonacci n s
  end.

Fixpoint run (n : Z) (sched : list actor) (s : state) : outcome state :=
  match sched with
  | [] => Ok s
  | a :: rest =>
      match step n a s with
      | Ok s' => run n rest s'
      | Blocked => Blocked
      | Panic msg => Panic msg
      end
  end.

(** [ch := make(chan int, size); go fibonacci(n, ch); var fibList []int],
    with the two literals 10 of the source as arguments. *)
Definition start (size : Z) : outcome state :=
  match make_chan size with
  | Ok c => Ok (State c (PLoop 0 0 1) RRange [])
  | Blocked => Blocked
  | Panic msg => Panic msg
  end.

(** The goroutine runs ahead until the buffer is full, then the two
    alternate. *)
Definition eager (n : nat) : list actor :=
  replicate n Fib ++ [Fib] ++ replicate n Main ++ [Main].

(** The steps still to come, at most. *)
Definition fuel (n : Z) (s : state) : nat :=
  match producer s with
  | PLoop i _ _ => 2 * Z.to_nat (n - i) + 1
  | PReturned => 0
  end
  + length (buf (ch s))
  + match reader s with RRange => 1 | RExit => 0 end.

(** What holds in every state the program can reach: the goroutine's
    [a] and [b] are the Fibonacci numbers (on Go's [int]) of its [i] and
    [i + 1], and what [main] has appended followed by what the channel
    holds is what was sent, the first [i] of these numbers in order. *)
Definition inv (n size : Z) (s : state) : Prop :=
  cap (ch s) = size
  ∧ Z.of_nat (length (buf (ch s))) ≤ size
  ∧ match producer s with
    | PLoop i a b =>
        0 ≤ i ≤ Z.max 0 n
        ∧ a = GoInt.wrap (fib (Z.to_nat i))
        ∧ b = GoInt.wrap (fib (S (Z.to_nat i)))
        ∧ closed (ch s) = false
        ∧ reader s = RRange
        ∧ fibList s ++ buf (ch s)
          = (λ k, GoInt.wrap (fib k)) <$> seq 0 (Z.to_nat i)
    | PReturned =>
        closed (ch s) = true
        ∧ fibList s ++ buf (ch s)
          = (λ k, GoInt.wrap (fib k)) <$> seq 0 (Z.to_nat n)
        ∧ (reader s = RExit → buf (ch s) = [])
    end.

End Generator.

(** *** The counter behind a mutex of the first Go file *)

Module ConcurrentCounter.

Local Open Scope Z_scope.

(** Where a goroutine [func() { defer wg.Done(); counter.Increment() }]
    stands.  [Increment] is
    [c.mu.Lock(); defer c.mu.Unlock(); c.count++], and [c.count++] on a
    plain [int] field is a read followed by a write. *)
Inductive gstate : Type :=
| GLock            (* at c.mu.Lock() *)
| GLoad            (* at the read of c.count *)
| GStore (v : Z)   (* at the write of c.count, with the value to write *)
| GUnlock          (* at the deferred c.mu.Unlock() *)
| GDone            (* at the deferred wg.Done() *)
| GReturned.

(** Where [main] stands in
    [for i := 0; i < n; i++ { wg.Add(1); go func() {...}() }; wg.Wait();
     fmt.Printf(..., counter.Value())],
    [Value] being [c.mu.Lock(); defer c.mu.Unlock(); return c.count]. *)
Inductive mstate : Type :=
| MAdd (i : Z)      (* at the loop test, then wg.Add(1) *)
| MSpawn (i : Z)    (* at the go statement, then i++ *)
| MWait             (* at wg.Wait() *)
| MLock             (* at c.mu.Lock() *)
| MRead             (* at return c.count *)
| MUnlock (v : Z)   (* at the deferred c.mu.Unlock(), with the result *)
| MPrint (v : Z).   (* counter.Value() has returned v *)

Record state : Type := State {
  mu : bool;                  (* c.mu is locked *)
  count : Z;                  (* c.count *)
  wg : nat;                   (* the counter of wg *)
  goroutines : list gstate;
  main_pc : mstate
}.

Definition set_mu (b : bool) (s : state) : state :=
  State b (count s) (wg s) (goroutines s) (main_pc s).
Definition set_count (v : Z) (s : state) : state :=
  State (mu s) v (wg s) (goroutines s) (main_pc s).
Definition set_wg (k : nat) (s : state) : state :=
  State (mu s) (count s) k (goroutines s) (main_pc s).
Definition set_goroutine (i : nat) (g : gstate) (s : state) : state :=
  State (mu s) (count s) (wg s) (<[i := g]> (goroutines s)) (main_pc s).
Definition spawn (s : state) : state :=
  State (mu s) (count s) (wg s) (goroutines s ++ [GLock]) (main_pc s).
Definition set_main (m : mstate) (s : state) : state :=
  State (mu s) (count s) (wg s) (goroutines s) m.

(** [c.mu.Lock()] waits while the mutex is locked. *)
Definition lock (s : state) : outcome state :=
  if mu s then Blocked else Ok (set_mu true s).

(** [c.mu.Unlock()]: unlocking an unlocked mutex is a fatal error. *)
Definition unlock (s : state) : outcome state :=
  if mu s then Ok (set_mu false s)
  else Panic "sync: unlock of unlocked mutex".

(** [wg.Done()]: a counter below zero is a run-time panic. *)
Definition wg_done (s : state) : outcome state :=
  match wg s with
  | O => Panic "sync: negative WaitGroup counter"
  | S k => Ok (set_wg k s)
  end.

(** One action of goroutine [i]. *)
Definition goroutine (i : nat) (s : state) : outcome state :=
  match goroutines s !! i with
  | Some GLock =>
      match lock s with
      | Ok s' => Ok (set_goroutine i GLoad s')
      | Blocked => Blocked
      | Panic msg => Panic msg
      end
  | Some GLoad => Ok (set_goroutine i (GStore (GoInt.add (count s) 1)) s)
  | Some (GStore v) => Ok (set_goroutine i GUnlock (set_count v s))
  | Some GUnlock =>
      match unlock s with
      | Ok s' => Ok (set_goroutine i GDone s')
      | Blocked => Blocked
      | Panic msg => Panic msg
      end
  | Some GDone =>
      match wg_done s with
      | Ok s' => Ok (set_goroutine i GReturned s')
      | Blocked => Blocked
      | Panic msg => Panic msg
      end
  | Some GReturned | None => Blocked
  end.

(** One action of [main]. *)
Definition main_step (n : Z) (s : state) : outcome state :=
  match main_pc s with
  | MAdd i =>
      if i <? n then Ok (set_main (MSpawn i) (set_wg (S (wg s)) s))
      else Ok (set_main MWait s)
  | MSpawn i => Ok (set_main (MAdd (GoInt.add i 1)) (spawn s))
  | MWait =>
      match wg s with
      | O => Ok (set_main MLock s)
      | S _ => Blocked
      end
  | MLock =>
      match lock s with
      | Ok s' => Ok (set_main MRead s')
      | Blocked => Blocked
      | Panic msg => Panic msg
      end
  | MRead => Ok (set_main (MUnlock (count s)) s)
  | MUnlock v =>
      match unlock s with
      | Ok s' => Ok (set_main (MPrint v) s')
      | Blocked => Blocked
      | Panic msg => Panic msg
      end
  | MPrint _ => Blocked
  end.

Inductive actor : Type :=
| Main
| Goroutine (i : nat).

Definition step (n : Z) (a : actor) (s : state) : outcome state :=
  match a with
  | Main => main_step n s
  | Goroutine i => goroutine i s
  end.

Fixpoint run (n : Z) (sched : list actor) (s : state) : outcome state :=
  match sched with
  | [] => Ok s
  | a :: rest =>
      match step n a s with
      | Ok s' => run n rest s'
      | Blocked => Blocked
      | Panic msg => Panic msg
      end
  end.

(** [counter := &ConcurrentCounter{}; var wg sync.WaitGroup] and the loop
    variable at zero; the literal 100 of the loop is the argument [n] of
    the steps. *)
Definition start : state := State false 0 0 [] (MAdd 0).

(** Two goroutines that take the mutex in the reverse order of their
    start. *)
Definition reversed : list actor :=
  [Main; Main; Main; Main; Main]
  ++ replicate 5 (Goroutine 1) ++ replicate 5 (Goroutine 0)
  ++ replicate 4 Main.

(** What each goroutine and [main] contribute to the counts below. *)
Definition stored (g : gstate) : nat :=
  match g with GUnlock | GDone | GReturned => 1 | _ => 0 end.
Definition holds (g : gstate) : nat :=
  match g with GLoad | GStore _ | GUnlock => 1 | _ => 0 end.
Definition running (g : gstate) : nat :=
  match g with GReturned => 0 | _ => 1 end.
Definition main_holds (m : mstate) : nat :=
  match m with MRead | MUnlock _ => 1 | _ => 0 end.
Definition gweight (g : gstate) : nat :=
  match g with
  | GLock => 5 | GLoad => 4 | GStore _ => 3 | GUnlock => 2 | GDone => 1
  | GReturned => 0
  end.
Definition mweight (n : Z) (m : mstate) : nat :=
  match m with
  | MAdd i => 7 * Z.to_nat (n - i) + 5
  | MSpawn i => 7 * Z.to_nat (n - i) + 4
  | MWait => 4 | MLock => 3 | MRead => 2 | MUnlock _ => 1 | MPrint _ => 0
  end.

(** The steps still to come, at most. *)
Definition fuel (n : Z) (s : state) : nat :=
  mweight n (main_pc s) + sum_list_with gweight (goroutines s).

(** How many goroutines, [main] included, are between a [Lock] and its
    [Unlock]. *)
Definition in_critical_section (s : state) : nat :=
  sum_list_with holds (goroutines s) + main_holds (main_pc s).

(** What holds in every state the program can reach: [c.count] is the
    number of writes done, the mutex is locked exactly while someone is
    between [Lock] and [Unlock], a goroutine about to write holds the
    successor of [c.count], the counter of [wg] is the number of
    goroutines still to call [Done], and [main] is where its loop
    variable says. *)
Record inv (n : Z) (s : state) : Prop := Inv {
  inv_count : count s = Z.of_nat (sum_list_with stored (goroutines s));
  inv_mutex : in_critical_section s = if mu s then 1%nat else 0%nat;
  inv_store :
    ∀ i v, goroutines s !! i = Some (GStore v) → v = count s + 1;
  inv_wg :
    wg s = (sum_list_with running (goroutines s)
            + match main_pc s with MSpawn _ => 1 | _ => 0 end)%nat;
  inv_main :
    match main_pc s with
    | MAdd i => 0 ≤ i ≤ Z.max 0 n ∧ length (goroutines s) = Z.to_nat i
    | MSpawn i => 0 ≤ i < n ∧ length (goroutines s) = Z.to_nat i
    | MWait => length (goroutines s) = Z.to_nat n
    | MLock | MRead => length (goroutines s) = Z.to_nat n ∧ wg s = 0%nat
    | MUnlock v | MPrint v =>
        length (goroutines s) = Z.to_nat n ∧ wg s = 0%nat ∧ v = count s
    end
}.

End ConcurrentCounter.

(** ** Part II: theorems *)

(** *** Channel operations *)

Lemma chan_send_ok c v c' :
  chan_send c v = Ok c' →
  closed c = false ∧ (Z.of_nat (length (buf c)) < cap c)%Z
  ∧ c' = Chan (buf c ++ [v]) (cap c) false.
Proof.
  unfold chan_send. destruct (closed c) eqn:Hc; [discriminate|].
  destruct (Z.ltb_spec (Z.of_nat (length (buf c))) (cap c)); [|discriminate].
  intros [= <-]. auto.
Qed.

Lemma chan_send_free c v :
  closed c = false → (Z.of_nat (length (buf c)) < cap c)%Z →
  chan_send c v = Ok (Chan (buf c ++ [v]) (cap c) false).
Proof.
  intros Hc Hlt. unfold chan_send. rewrite Hc.
  destruct (Z.ltb_spec (Z.of_nat (length (buf c))) (cap c)); [done|lia].
Qed.

Lemma chan_send_blocked c v :
  chan_send c v = Blocked →
  closed c = false ∧ (cap c ≤ Z.of_nat (length (buf c)))%Z.
Proof.
  unfold chan_send. destruct (closed c); [discriminate|].
  destruct (Z.ltb_spec (Z.of_nat (length (buf c))) (cap c)); [discriminate|].
  auto.
Qed.

Lemma chan_send_panic c v msg :
  chan_send c v = Panic msg → closed c = true.
Proof.
  unfold chan_send. destruct (closed c); [done|].
  destruct (_ <? _)%Z; discriminate.
Qed.

Lemma chan_recv_some c v c' :
  chan_recv c = Ok (Some v, c') →
  buf c = v :: buf c' ∧ cap c' = cap c ∧ closed c' = closed c.
Proof.
  unfold chan_recv. destruct (buf c) as [|x rest] eqn:Hb.
  - destruct (closed c); discriminate.
  - intros [= <- <-]. auto.
Qed.

Lemma chan_recv_none c c' :
  chan_recv c = Ok (None, c') → buf c = [] ∧ closed c = true ∧ c' = c.
Proof.
  unfold chan_recv. destruct (buf c) as [|x rest] eqn:Hb; [|discriminate].
  destruct (closed c); [|discriminate]. intros [= <-]. auto.
Qed.

Lemma chan_recv_blocked c :
  chan_recv c = Blocked → buf c = [] ∧ closed c = false.
Proof.
  unfold chan_recv. destruct (buf c); [|discriminate].
  destruct (closed c); [discriminate|]. auto.
Qed.

Lemma chan_recv_no_panic c msg : chan_recv c ≠ Panic msg.
Proof.
  unfold chan_recv. destruct (buf c); [destruct (closed c)|]; discriminate.
Qed.

Lemma chan_close_ok c c' :
  chan_close c = Ok c' → closed c = false ∧ c' = Chan (buf c) (cap c) true.
Proof.
  unfold chan_close. destruct (closed c); [discriminate|].
  intros [= <-]. auto.
Qed.

Lemma chan_close_open c :
  closed c = false → chan_close c = Ok (Chan (buf c) (cap c) true).
Proof. intros Hc. unfold chan_close. by rewrite Hc. Qed.

(** *** The cases of a step *)

Lemma worker_cases t i s s' :
  worker t i s = Ok s' →
  (∃ j c v, workers s !! i = Some WRange
            ∧ chan_recv (jobs s) = Ok (Some j, c) ∧ t j = Returns v
            ∧ s' = set_worker i (WSend v) (log_call j (set_jobs c s)))
  ∨ (∃ n, workers s !! i = Some WRange
          ∧ buf (jobs s) = [] ∧ closed (jobs s) = true
          ∧ wg s = S n ∧ s' = set_worker i WReturned (set_wg n s))
  ∨ (∃ v c, workers s !! i = Some (WSend v)
          ∧ chan_send (results s) v = Ok c
          ∧ s' = set_worker i WRange (set_results c s)).
Proof.
  unfold worker, wg_done.
  destruct (workers s !! i) as [[|v|]|] eqn:Hw; try discriminate.
  - destruct (chan_recv (jobs s)) as [[[j|] c]| |] eqn:Hr; try discriminate.
    + destruct (t j) as [v|] eqn:Ht; [|discriminate].
      intros [= <-]. left. eauto 10.
    + apply chan_recv_none in Hr as (Hb & Hc & _).
      destruct (wg s) as [|n] eqn:Hwg; [discriminate|].
      intros [= <-]. right; left. eauto 10.
  - destruct (chan_send (results s) v) as [c| |] eqn:Hs; try discriminate.
    intros [= <-]. right; right. eauto.
Qed.

Lemma worker_ok f i s s' :
  worker (total f) i s = Ok s' →
  (∃ j c, workers s !! i = Some WRange
          ∧ chan_recv (jobs s) = Ok (Some j, c)
          ∧ s' = set_worker i (WSend (f j)) (log_call j (set_jobs c s)))
  ∨ (∃ n, workers s !! i = Some WRange
          ∧ buf (jobs s) = [] ∧ closed (jobs s) = true
          ∧ wg s = S n ∧ s' = set_worker i WReturned (set_wg n s))
  ∨ (∃ v c, workers s !! i = Some (WSend v)
          ∧ chan_send (results s) v = Ok c
          ∧ s' = set_worker i WRange (set_results c s)).
Proof.
  intros [(j & c & v & Hw & Hr & [= <-] & ->)|[H|H]]%worker_cases; eauto 10.
Qed.

Lemma closer_ok s s' :
  closer_step s = Ok s' →
  (closer s = CWait ∧ wg s = 0 ∧ s' = set_closer CClose s)
  ∨ (closer s = CClose ∧ closed (results s) = false
     ∧ s' = set_closer CExit
              (set_results (Chan (buf (results s)) (cap (results s)) true) s)).
Proof.
  unfold closer_step. destruct (closer s) eqn:Hc; try discriminate.
  - destruct (wg s) eqn:Hwg; [|discriminate]. intros [= <-]. auto.
  - destruct (chan_close (results s)) as [c| |] eqn:Hcl; try discriminate.
    apply chan_close_ok in Hcl as [? ->]. intros [= <-]. auto.
Qed.

Lemma main_ok s s' :
  main_step s = Ok s' →
  (∃ j rest c, main_pc s = MSubmit (j :: rest)
               ∧ chan_send (jobs s) j = Ok c
               ∧ s' = set_main (MSubmit rest) (set_jobs c s))
  ∨ (main_pc s = MSubmit [] ∧ closed (jobs s) = false
     ∧ s' = set_main MGo
              (set_jobs (Chan (buf (jobs s)) (cap (jobs s)) true) s))
  ∨ (main_pc s = MGo ∧ s' = set_main MRange (set_closer CWait s))
  ∨ (∃ r c, main_pc s = MRange
            ∧ chan_recv (results s) = Ok (Some r, c)
            ∧ s' = push_result r (set_results c s))
  ∨ (main_pc s = MRange ∧ buf (results s) = [] ∧ closed (results s) = true
     ∧ s' = set_main MExit s).
Proof.
  unfold main_step. destruct (main_pc s) as [[|j rest]| | |] eqn:Hpc;
    try discriminate.
  - destruct (chan_close (jobs s)) as [c| |] eqn:Hcl; try discriminate.
    apply chan_close_ok in Hcl as [? ->]. intros [= <-]. right; left.
    repeat split; auto.
  - destruct (chan_send (jobs s) j) as [c| |] eqn:Hs; try discriminate.
    intros [= <-]. left. eauto 10.
  - intros [= <-]. do 2 right; left. repeat split; auto.
  - destruct (chan_recv (results s)) as [[[r|] c]| |] eqn:Hr; try discriminate.
    + intros [= <-]. do 3 right; left. eauto.
    + apply chan_recv_none in Hr as (? & ? & _). intros [= <-].
      do 4 right. repeat split; auto.
Qed.

(** *** Updating one worker *)

Lemma sum_list_with_insert {A} (g : A → nat) (ws : list A) i w w' :
  ws !! i = Some w →
  sum_list_with g (<[i := w']> ws) + g w = sum_list_with g ws + g w'.
Proof.
  intros Hi. pose proof (lookup_lt_Some _ _ _ Hi) as Hlt.
  rewrite (insert_take_drop ws i w') by done.
  rewrite <- (take_drop_middle ws i w Hi) at 3.
  rewrite !sum_list_with_app. simpl. lia.
Qed.

Lemma in_flight_insert ws i w w' :
  ws !! i = Some w →
  in_flight (<[i := w']> ws) ++ option_list (sending w)
  ≡ₚ in_flight ws ++ option_list (sending w').
Proof.
  intros Hi. pose proof (lookup_lt_Some _ _ _ Hi) as Hlt. unfold in_flight.
  rewrite (insert_take_drop ws i w') by done.
  rewrite <- (take_drop_middle ws i w Hi) at 3.
  rewrite !omap_app. simpl.
  destruct (sending w), (sending w'); simpl; solve_Permutation.
Qed.

Lemma elem_of_insert_inv {A} (ws : list A) i w x :
  x ∈ <[i := w]> ws → x = w ∨ x ∈ ws.
Proof.
  intros (j & Hj)%list_elem_of_lookup.
  apply list_lookup_insert_Some in Hj as [(-> & -> & _)|[_ Hj]]; [by left|].
  right. by eapply list_elem_of_lookup_2.
Qed.

Lemma live_replicate n : live (replicate n WRange) = n.
Proof. unfold live. induction n as [|n IH]; simpl; [done|]. by f_equal. Qed.

Lemma live_zero ws : live ws = 0 → Forall (λ w, w = WReturned) ws.
Proof.
  induction ws as [|w ws IH]; simpl; [constructor|].
  destruct w; simpl; try lia; intros H; constructor; auto.
Qed.

Lemma all_returned_in_flight ws :
  Forall (λ w, w = WReturned) ws → in_flight ws = [].
Proof. induction 1 as [|w ws -> _ IH]; simpl; [done|]. exact IH. Qed.

(** *** The invariant holds at the start and along every step *)

Lemma max_chan_size_eq : max_chan_size = (2 ^ 45 - 12)%Z.
Proof. reflexivity. Qed.

Lemma make_chan_cases size :
  ((size < 0 ∨ max_chan_size < size)%Z
   ∧ make_chan size = Panic "makechan: size out of range")
  ∨ ((0 ≤ size ≤ max_chan_size)%Z
     ∧ make_chan size = Ok (Chan [] size false)).
Proof.
  rewrite max_chan_size_eq. unfold make_chan, max_alloc, hchan_size, elem_size.
  destruct (Z.ltb_spec size 0); simpl; [left; split; [lia|done]|].
  destruct (Z.ltb_spec (2 ^ 48 - 96) (8 * size)).
  - left. split; [lia|done].
  - right. split; [lia|done].
Qed.

Lemma make_chan_ok size c :
  make_chan size = Ok c →
  (0 ≤ size ≤ max_chan_size)%Z ∧ c = Chan [] size false.
Proof.
  destruct (make_chan_cases size) as [[_ ->]|[? ->]]; [discriminate|].
  intros [= <-]. auto.
Qed.

Lemma new_pool_ok n qcap rcap js s :
  new_pool n qcap rcap js = Ok s →
  (0 ≤ qcap)%Z ∧ (0 ≤ rcap)%Z
  ∧ s = Pool (Chan [] qcap false) (Chan [] rcap false) (Z.to_nat n)
             (replicate (Z.to_nat n) WRange) (MSubmit js) CNotStarted [] [].
Proof.
  unfold new_pool.
  destruct (make_chan qcap) as [jc| |] eqn:Hq; try discriminate.
  destruct (make_chan rcap) as [rc| |] eqn:Hr; try discriminate.
  apply make_chan_ok in Hq as [? ->]. apply make_chan_ok in Hr as [? ->].
  intros [= <-]. split; [lia|]. split; [lia|done].
Qed.

Lemma new_pool_inv f n qcap rcap js s :
  new_pool n qcap rcap js = Ok s → pool_inv f (Z.to_nat n) js s.
Proof.
  intros (_ & _ & ->)%new_pool_ok. constructor; simpl.
  - apply length_replicate.
  - by rewrite live_replicate.
  - assert (in_flight (replicate (Z.to_nat n) WRange) = []) as ->; [|done].
    induction (Z.to_nat n); simpl; auto.
  - done.
  - done.
  - intros [[=] _]%elem_of_replicate.
  - auto.
  - discriminate.
Qed.

Lemma main_inv f N js s s' :
  pool_inv f N js s → main_step s = Ok s' → pool_inv f N js s'.
Proof.
  intros [Hn Hwg Hres Hinv Hjc Hret Hcl Hex] Hstep.
  apply main_ok in Hstep
    as [(j & rest & c & Hpc & Hs & ->)
       |[(Hpc & Hc & ->)
        |[(Hpc & ->)
         |[(r & c & Hpc & Hr & ->)|(Hpc & Hb & Hc & ->)]]]];
    rewrite Hpc in *; simpl in *.
  - apply chan_send_ok in Hs as (Hc & _ & ->).
    constructor; simpl; rewrite ?Hpc; simpl; auto.
    + rewrite <- Hres. rewrite <- !app_assoc. done.
    + rewrite <- Hinv. rewrite <- !app_assoc. done.
    + intros Hin. destruct (Hret Hin) as [? _]. congruence.
    + destruct (closer s); intuition discriminate.
    + discriminate.
  - constructor; simpl; rewrite ?Hpc; simpl; auto.
    + intros Hin. destruct (Hret Hin) as [? _]. congruence.
    + destruct (closer s); intuition discriminate.
    + discriminate.
  - constructor; simpl; rewrite ?Hpc; simpl; auto.
    + destruct (closer s); intuition discriminate.
    + discriminate.
  - apply chan_recv_some in Hr as (Hb & _ & Hc).
    rewrite Hb in *.
    constructor; simpl; rewrite ?Hpc; simpl; auto.
    + rewrite <- Hres. rewrite <- !app_assoc. simpl. done.
    + rewrite Hc. destruct (closer s); intuition discriminate.
    + discriminate.
  - constructor; simpl; rewrite ?Hpc; simpl; auto.
    + destruct (closer s); intuition (auto; congruence).
    + intros _. split; [|done].
      destruct (closer s); intuition congruence.
Qed.

Lemma worker_inv f N js i s s' :
  pool_inv f N js s → worker (total f) i s = Ok s' → pool_inv f N js s'.
Proof.
  intros [Hn Hwg Hres Hinv Hjc Hret Hcl Hex] Hstep.
  apply worker_ok in Hstep
    as [(j & c & Hw & Hr & ->)
       |[(n & Hw & Hb & Hc & Hn' & ->)|(v & c & Hw & Hs & ->)]].
  - apply chan_recv_some in Hr as (Hb & _ & Hc).
    pose proof (sum_list_with_insert is_live _ _ _ (WSend (f j)) Hw) as Hlive.
    pose proof (in_flight_insert _ _ _ (WSend (f j)) Hw) as Hfl.
    simpl in Hlive, Hfl. rewrite app_nil_r in Hfl.
    constructor; simpl.
    + by rewrite length_insert.
    + unfold live in *. lia.
    + rewrite Hfl, <- Hres, Hb. simpl. solve_Permutation.
    + rewrite <- Hinv, Hb. solve_Permutation.
    + by rewrite Hc.
    + intros [[=]|Hin]%elem_of_insert_inv.
      destruct (Hret Hin) as [_ Hnil]. rewrite Hb in Hnil. discriminate.
    + exact Hcl.
    + exact Hex.
  - pose proof (sum_list_with_insert is_live _ _ _ WReturned Hw) as Hlive.
    pose proof (in_flight_insert _ _ _ WReturned Hw) as Hfl.
    simpl in Hlive, Hfl. rewrite !app_nil_r in Hfl.
    constructor; simpl.
    + by rewrite length_insert.
    + unfold live in *. lia.
    + by rewrite Hfl.
    + done.
    + done.
    + auto.
    + destruct (closer s); intuition congruence.
    + exact Hex.
  - apply chan_send_ok in Hs as (Hc & _ & ->).
    pose proof (sum_list_with_insert is_live _ _ _ WRange Hw) as Hlive.
    pose proof (in_flight_insert _ _ _ WRange Hw) as Hfl.
    simpl in Hlive, Hfl. rewrite app_nil_r in Hfl.
    constructor; simpl.
    + by rewrite length_insert.
    + unfold live in *. lia.
    + rewrite <- Hres, <- Hfl. solve_Permutation.
    + done.
    + done.
    + intros [[=]|Hin]%elem_of_insert_inv. auto.
    + destruct (closer s); intuition congruence.
    + intros Hpc. destruct (Hex Hpc) as [Hce _]. rewrite Hce in Hcl.
      intuition congruence.
Qed.

Lemma closer_inv f N js s s' :
  pool_inv f N js s → closer_step s = Ok s' → pool_inv f N js s'.
Proof.
  intros [Hn Hwg Hres Hinv Hjc Hret Hcl Hex] Hstep.
  apply closer_ok in Hstep as [(Hc & Hz & ->)|(Hc & Hr & ->)];
    rewrite Hc in *; constructor; simpl; rewrite ?Hc; auto.
  - intuition.
  - intros Hpc. destruct (Hex Hpc) as [[=] _].
  - intuition.
  - intros Hpc. destruct Hcl as [Hm _]. congruence.
Qed.

Lemma step_inv f N js a s s' :
  pool_inv f N js s → step (total f) a s = Ok s' → pool_inv f N js s'.
Proof.
  destruct a; simpl; eauto using main_inv, worker_inv, closer_inv.
Qed.

Lemma run_app t sched1 sched2 s :
  run t (sched1 ++ sched2) s
  = match run t sched1 s with
    | Ok s' => run t sched2 s'
    | Blocked => Blocked
    | Panic msg => Panic msg
    end.
Proof.
  revert s. induction sched1 as [|a sched1 IH]; intros s; simpl; [done|].
  destruct (step t a s); auto.
Qed.

Lemma run_inv f N js sched s s' :
  pool_inv f N js s → run (total f) sched s = Ok s' → pool_inv f N js s'.
Proof.
  revert s. induction sched as [|a sched IH]; intros s Hinv; simpl.
  - by intros [= <-].
  - destruct (step (total f) a s) as [s1| |] eqn:Hstep; try discriminate.
    eauto using step_inv.
Qed.

(** *** Every step uses up fuel *)

Lemma step_fuel t a s s' : step t a s = Ok s' → fuel s' < fuel s.
Proof.
  destruct a as [|i|]; simpl; intros Hstep.
  - apply main_ok in Hstep
      as [(j & rest & c & Hpc & Hs & ->)
         |[(Hpc & Hc & ->)
          |[(Hpc & ->)
           |[(r & c & Hpc & Hr & ->)|(Hpc & Hb & Hc & ->)]]]];
      unfold fuel; simpl; rewrite Hpc; simpl.
    + apply chan_send_ok in Hs as (_ & _ & ->). simpl.
      rewrite length_app. simpl. lia.
    + lia.
    + destruct (closer s); simpl; lia.
    + apply chan_recv_some in Hr as (-> & _ & _). simpl. lia.
    + lia.
  - apply worker_cases in Hstep
      as [(j & c & v & Hw & Hr & _ & ->)
         |[(n & Hw & Hb & Hc & Hn' & ->)|(v & c & Hw & Hs & ->)]];
      unfold fuel; simpl.
    + apply chan_recv_some in Hr as (-> & _ & _).
      pose proof (sum_list_with_insert wweight _ _ _ (WSend v) Hw).
      simpl in *. lia.
    + pose proof (sum_list_with_insert wweight _ _ _ WReturned Hw).
      simpl in *. lia.
    + apply chan_send_ok in Hs as (_ & _ & ->).
      pose proof (sum_list_with_insert wweight _ _ _ WRange Hw).
      simpl in *. rewrite length_app. simpl. lia.
  - apply closer_ok in Hstep as [(Hc & Hz & ->)|(Hc & Hr & ->)];
      unfold fuel; simpl; rewrite Hc; simpl; lia.
Qed.

Lemma run_fuel t sched s s' :
  run t sched s = Ok s' → length sched + fuel s' ≤ fuel s.
Proof.
  revert s. induction sched as [|a sched IH]; intros s; simpl.
  - intros [= <-]. lia.
  - destruct (step t a s) as [s1| |] eqn:Hstep; try discriminate.
    intros Hrun. apply IH in Hrun. apply step_fuel in Hstep. lia.
Qed.

(** *** Capacities never change *)

Lemma step_caps t a s s' :
  step t a s = Ok s' →
  cap (jobs s') = cap (jobs s) ∧ cap (results s') = cap (results s).
Proof.
  destruct a as [|i|]; simpl; intros Hstep.
  - apply main_ok in Hstep
      as [(j & rest & c & Hpc & Hs & ->)
         |[(Hpc & Hc & ->)
          |[(Hpc & ->)
           |[(r & c & Hpc & Hr & ->)|(Hpc & Hb & Hc & ->)]]]]; simpl; auto.
    + by apply chan_send_ok in Hs as (_ & _ & ->).
    + by apply chan_recv_some in Hr as (_ & -> & _).
  - apply worker_cases in Hstep
      as [(j & c & v & Hw & Hr & _ & ->)
         |[(n & Hw & Hb & Hc & Hn' & ->)|(v & c & Hw & Hs & ->)]];
      simpl; auto.
    + by apply chan_recv_some in Hr as (_ & -> & _).
    + by apply chan_send_ok in Hs as (_ & _ & ->).
  - apply closer_ok in Hstep as [(Hc & Hz & ->)|(Hc & Hr & ->)]; simpl; auto.
Qed.

Lemma run_caps t sched s s' :
  run t sched s = Ok s' →
  cap (jobs s') = cap (jobs s) ∧ cap (results s') = cap (results s).
Proof.
  revert s. induction sched as [|a sched IH]; intros s; simpl.
  - by intros [= <-].
  - destruct (step t a s) as [s1| |] eqn:Hstep; try discriminate.
    intros Hrun. apply IH in Hrun as [-> ->]. by eapply step_caps.
Qed.

(** *** A closed queue stays closed *)

Lemma step_jobs_closed t a s s' :
  closed (jobs s) = true → step t a s = Ok s' → closed (jobs s') = true.
Proof.
  intros Hc. destruct a as [|i|]; simpl; intros Hstep.
  - apply main_ok in Hstep
      as [(j & rest & c & Hpc & Hs & ->)
         |[(Hpc & Hc0 & ->)
          |[(Hpc & ->)
           |[(r & c & Hpc & Hr & ->)|(Hpc & Hb & Hc1 & ->)]]]];
      simpl; auto.
    apply chan_send_ok in Hs as (? & _). congruence.
  - apply worker_cases in Hstep
      as [(j & c & v & _ & Hr & _ & ->)
         |[(m & _ & _ & _ & _ & ->)|(v & c & _ & _ & ->)]];
      simpl; auto.
    by apply chan_recv_some in Hr as (_ & _ & ->).
  - apply closer_ok in Hstep as [(_ & _ & ->)|(_ & _ & ->)]; auto.
Qed.

Lemma run_jobs_closed t sched s s' :
  closed (jobs s) = true → run t sched s = Ok s' → closed (jobs s') = true.
Proof.
  revert s. induction sched as [|a sched IH]; intros s Hc; simpl.
  - by intros [= <-].
  - destruct (step t a s) as [s1| |] eqn:Hstep; try discriminate.
    eauto using step_jobs_closed.
Qed.

(** *** Which goroutine can move *)

Lemma live_lookup ws i w : ws !! i = Some w → is_live w ≤ live ws.
Proof.
  intros Hi. apply sum_list_with_in. by eapply list_elem_of_lookup_2.
Qed.

Lemma live_pos ws :
  0 < live ws →
  ∃ i, ws !! i = Some WRange ∨ ∃ v, ws !! i = Some (WSend v).
Proof.
  induction ws as [|w ws IH]; simpl; [lia|].
  destruct w as [|v|]; simpl.
  - intros _. exists 0. by left.
  - intros _. exists 0. right. by exists v.
  - intros [i Hi]%IH. by exists (S i).
Qed.

Lemma workers_shape ws :
  (∃ i, ws !! i = Some WRange)
  ∨ WReturned ∈ ws
  ∨ length (in_flight ws) = length ws.
Proof.
  induction ws as [|w ws IH]; simpl; [by right; right|].
  destruct w as [|v|].
  - left. by exists 0.
  - destruct IH as [[i Hi]|[Hin|Hlen]].
    + left. by exists (S i).
    + right; left. by right.
    + right; right. simpl. by f_equal.
  - right; left. by left.
Qed.

Lemma in_flight_length ws : length (in_flight ws) ≤ length ws.
Proof.
  unfold in_flight. induction ws as [|w ws IH]; csimpl; [done|].
  destruct (sending w); csimpl; lia.
Qed.

Lemma worker_recv_enabled f i s j rest :
  workers s !! i = Some WRange → buf (jobs s) = j :: rest →
  ∃ s', worker (total f) i s = Ok s'.
Proof.
  intros Hw Hb. unfold worker, chan_recv, total. rewrite Hw, Hb. eauto.
Qed.

Lemma worker_return_enabled f i s :
  wg s = live (workers s) →
  workers s !! i = Some WRange →
  buf (jobs s) = [] → closed (jobs s) = true →
  ∃ s', worker (total f) i s = Ok s' ∧ workers s' !! i = Some WReturned.
Proof.
  intros Hwg Hw Hb Hc. pose proof (live_lookup _ _ _ Hw) as Hlive.
  pose proof (lookup_lt_Some _ _ _ Hw) as Hlt.
  unfold worker, chan_recv, wg_done. rewrite Hw, Hb, Hc.
  destruct (wg s) as [|n] eqn:Hn; [simpl in Hlive; lia|].
  eexists. split; [done|]. simpl. by apply list_lookup_insert_eq.
Qed.

Lemma worker_send_enabled t i s v :
  workers s !! i = Some (WSend v) →
  closed (results s) = false →
  (Z.of_nat (length (buf (results s))) < cap (results s))%Z →
  ∃ s', worker t i s = Ok s'.
Proof.
  intros Hw Hc Hlt. unfold worker. rewrite Hw.
  rewrite chan_send_free by done. eauto.
Qed.

Lemma progress f N js s :
  pool_inv f N js s →
  main_pc s ≠ MExit →
  (1 ≤ cap (results s))%Z →
  (submitting (main_pc s) = true →
   1 ≤ N ∧ (1 ≤ cap (jobs s))%Z
   ∧ (Z.of_nat (length js)
      ≤ cap (jobs s) + Z.of_nat N + cap (results s))%Z) →
  ∃ a s', step (total f) a s = Ok s'.
Proof.
  intros [Hn Hwg Hres Hinv Hjc Hret Hcl Hex] Hne Hrcap Hsub.
  destruct (main_pc s) as [[|j rest]| | |] eqn:Hpc; simpl in *.
  - (* close(jobs) *)
    exists Main. simpl. unfold main_step. rewrite Hpc.
    rewrite chan_close_open by done. eauto.
  - (* jobs <- j *)
    destruct Hsub as (HN & Hqcap & Hlen); [done|].
    destruct (chan_send (jobs s) j) as [c| |] eqn:Hs.
    + exists Main. simpl. unfold main_step. rewrite Hpc, Hs. eauto.
    + apply chan_send_blocked in Hs as [_ Hfull].
      destruct (buf (jobs s)) as [|j0 q] eqn:Hb; [simpl in Hfull; lia|].
      destruct (workers_shape (workers s)) as [[i Hi]|[Hin|Hall]].
      * exists (Worker i). eapply worker_recv_enabled; eauto.
      * destruct (Hret Hin) as [? _]. congruence.
      * assert (closed (results s) = false) as Hrc.
        { destruct (closer s); intuition discriminate. }
        destruct (workers s) as [|w ws] eqn:Hws; [simpl in Hn; lia|].
        pose proof (in_flight_length ws) as Hle. unfold in_flight in *.
        destruct w as [|v|]; csimpl in Hall; [lia| |lia].
        destruct (Z.ltb_spec (Z.of_nat (length (buf (results s))))
                    (cap (results s))) as [Hfree|Hfullr].
        -- exists (Worker 0).
           eapply (worker_send_enabled _ 0 s v); [by rewrite Hws|done..].
        -- apply Permutation_length in Hres.
           rewrite !length_app, !length_fmap, !length_app in Hres.
           csimpl in *. lia.
    + apply chan_send_panic in Hs. congruence.
  - (* go func() {...}() *)
    exists Main. simpl. unfold main_step. rewrite Hpc. eauto.
  - (* for r := range results *)
    destruct (chan_recv (results s)) as [[[r|] c]| |] eqn:Hr.
    + exists Main. simpl. unfold main_step. rewrite Hpc, Hr. eauto.
    + exists Main. simpl. unfold main_step. rewrite Hpc, Hr. eauto.
    + apply chan_recv_blocked in Hr as [Hb Hc].
      destruct (closer s) eqn:Hcs.
      * destruct Hcl as [[?|?] _]; discriminate.
      * destruct (wg s) as [|n] eqn:Hn0.
        -- exists Closer. simpl. unfold closer_step. rewrite Hcs, Hn0. eauto.
        -- destruct (live_pos (workers s)) as [i [Hi|[v Hi]]]; [lia|..].
           ++ exists (Worker i).
              destruct (buf (jobs s)) as [|j0 q] eqn:Hbj.
              ** destruct (worker_return_enabled f i s) as (s' & Hs' & _);
                   eauto; congruence.
              ** eapply worker_recv_enabled; eauto.
           ++ exists (Worker i). eapply worker_send_enabled; eauto.
              rewrite Hb. simpl. lia.
      * exists Closer. simpl. unfold closer_step. rewrite Hcs.
        rewrite chan_close_open by done. eauto.
      * destruct Hcl as (_ & ? & _). congruence.
    + by apply chan_recv_no_panic in Hr.
  - done.
Qed.

(** *** With a transform that returns, nothing panics *)

Lemma no_panic f N js a s msg :
  pool_inv f N js s → step (total f) a s ≠ Panic msg.
Proof.
  intros [Hn Hwg Hres Hinv Hjc Hret Hcl Hex].
  destruct a as [|i|]; simpl.
  - unfold main_step.
    destruct (main_pc s) as [[|j rest]| | |] eqn:Hpc; simpl in *; try done.
    + by rewrite chan_close_open.
    + destruct (chan_send (jobs s) j) eqn:Hs; try done.
      apply chan_send_panic in Hs. congruence.
    + destruct (chan_recv (results s)) as [[[r|] c]| |] eqn:Hr; try done.
      by apply chan_recv_no_panic in Hr.
  - unfold worker, total, wg_done.
    destruct (workers s !! i) as [[|v|]|] eqn:Hw; try done.
    + destruct (chan_recv (jobs s)) as [[[j|] c]| |] eqn:Hr; try done.
      * apply live_lookup in Hw. simpl in Hw.
        destruct (wg s); [lia|done].
      * by apply chan_recv_no_panic in Hr.
    + destruct (chan_send (results s) v) eqn:Hs; try done.
      apply chan_send_panic in Hs. apply live_lookup in Hw. simpl in Hw.
      destruct (closer s); intuition (try congruence; lia).
  - unfold closer_step. destruct (closer s); try done.
    + by destruct (wg s).
    + destruct Hcl as (_ & ? & _). by rewrite chan_close_open.
Qed.

(** *** The pool from its start *)

(** *** When every worker has returned *)

Lemma live_all_returned ws : Forall (λ w, w = WReturned) ws → live ws = 0.
Proof. induction 1 as [|w ws -> _ IH]; simpl; [done|]. exact IH. Qed.

(** Workers that have returned stay so. *)
Lemma step_all_returned t a s s' :
  step t a s = Ok s' →
  Forall (λ w, w = WReturned) (workers s) → workers s' = workers s.
Proof.
  intros Hstep Hall. destruct a as [|i|]; simpl in Hstep.
  - apply main_ok in Hstep
      as [(j & rest & c & _ & _ & ->)
         |[(_ & _ & ->)
          |[(_ & ->)
           |[(r & c & _ & _ & ->)|(_ & _ & _ & ->)]]]]; done.
  - unfold worker in Hstep.
    destruct (workers s !! i) as [w|] eqn:Hw; [|done].
    apply list_elem_of_lookup_2 in Hw.
    rewrite Forall_forall in Hall. by rewrite (Hall _ Hw) in Hstep.
  - apply closer_ok in Hstep as [(_ & _ & ->)|(_ & _ & ->)]; done.
Qed.

Lemma run_all_returned t sched s s' :
  run t sched s = Ok s' →
  Forall (λ w, w = WReturned) (workers s) → workers s' = workers s.
Proof.
  revert s. induction sched as [|a sched IH]; intros s; simpl.
  - by intros [= <-].
  - destruct (step t a s) as [s1| |] eqn:Hstep; try discriminate.
    intros Hrun Hall.
    pose proof (step_all_returned _ _ _ _ Hstep Hall) as Hw.
    rewrite (IH _ Hrun); [done|]. by rewrite Hw.
Qed.

(** Once every worker of a pool with workers has returned, [main] or the
    closing goroutine can move as long as [results] is open. *)
Lemma join_progress f N js s :
  pool_inv f N js s → 1 ≤ N →
  Forall (λ w, w = WReturned) (workers s) →
  closed (results s) = false →
  ∃ a s', (a = Main ∨ a = Closer) ∧ step (total f) a s = Ok s'.
Proof.
  intros [Hn Hwg Hres Hinv Hjc Hret Hcl Hex] HN Hall Hopen.
  assert (WReturned ∈ workers s) as Hin.
  { destruct (workers s) as [|w ws]; [simpl in Hn; lia|].
    apply Forall_cons in Hall as [-> _]. apply elem_of_cons. by left. }
  destruct (Hret Hin) as [Hjc' _].
  assert (wg s = 0) as Hz by (rewrite Hwg; by apply live_all_returned).
  destruct (closer s) eqn:Hc.
  - destruct Hcl as [[Hpc|Hsub] _].
    + exists Main. eexists. split; [by left|].
      simpl. unfold main_step. by rewrite Hpc.
    + rewrite Hjc', Hsub in Hjc. discriminate.
  - exists Closer. eexists. split; [by right|].
    simpl. unfold closer_step. by rewrite Hc, Hz.
  - exists Closer. eexists. split; [by right|].
    simpl. unfold closer_step. by rewrite Hc, chan_close_open.
  - destruct Hcl as (_ & ? & _). congruence.
Qed.

(** *** A pool without workers *)

Lemma step_no_workers t a s s' :
  step t a s = Ok s' →
  workers s = [] ∧ invoked s = [] ∧ buf (results s) = []
  ∧ workerResults s = [] →
  workers s' = [] ∧ invoked s' = [] ∧ buf (results s') = []
  ∧ workerResults s' = [].
Proof.
  intros Hstep (Hw & Hi & Hb & Hr). destruct a as [|i|]; simpl in Hstep.
  - apply main_ok in Hstep
      as [(j & rest & c & _ & _ & ->)
         |[(_ & _ & ->)
          |[(_ & ->)
           |[(r & c & _ & Hrecv & ->)|(_ & _ & _ & ->)]]]]; simpl; auto.
    apply chan_recv_some in Hrecv as (Hb' & _). congruence.
  - unfold worker in Hstep. by rewrite Hw in Hstep.
  - apply closer_ok in Hstep as [(_ & _ & ->)|(_ & _ & ->)]; simpl; auto.
Qed.

Lemma run_no_workers t sched s s' :
  run t sched s = Ok s' →
  workers s = [] ∧ invoked s = [] ∧ buf (results s) = []
  ∧ workerResults s = [] →
  workers s' = [] ∧ invoked s' = [] ∧ buf (results s') = []
  ∧ workerResults s' = [].
Proof.
  revert s. induction sched as [|a sched IH]; intros s; simpl.
  - by intros [= <-].
  - destruct (step t a s) as [s1| |] eqn:Hstep; try discriminate.
    eauto using step_no_workers.
Qed.

Section Pool.

Variable f : Z → Z.
Variables n qcap rcap : Z.
Variable js : list Z.
Variable s0 : pool.
Hypothesis Hstart : new_pool n qcap rcap js = Ok s0.

Lemma reach_inv sched s :
  run (total f) sched s0 = Ok s → pool_inv f (Z.to_nat n) js s.
Proof. eauto using run_inv, new_pool_inv. Qed.

Lemma reach_caps sched s :
  run (total f) sched s0 = Ok s →
  cap (jobs s) = qcap ∧ cap (results s) = rcap.
Proof.
  intros [-> ->]%run_caps.
  by apply new_pool_ok in Hstart as (_ & _ & ->).
Qed.

Lemma reach_returned sched s :
  run (total f) sched s0 = Ok s →
  wg s = 0 → Forall (λ w, w = WReturned) (workers s).
Proof.
  intros [_ Hwg _ _ _ _ _ _]%reach_inv Hz.
  apply live_zero. congruence.
Qed.

Lemma reach_exit sched s :
  run (total f) sched s0 = Ok s → main_pc s = MExit →
  closed (results s) = true ∧ buf (results s) = []
  ∧ Forall (λ w, w = WReturned) (workers s).
Proof.
  intros Hrun Hpc. pose proof (reach_inv _ _ Hrun) as Hinv.
  destruct (inv_exit _ _ _ _ Hinv Hpc) as [Hc Hb].
  pose proof (inv_closer _ _ _ _ Hinv) as Hcl. rewrite Hc in Hcl.
  destruct Hcl as (_ & ? & ?). eauto using reach_returned.
Qed.

Lemma reach_delivered sched s :
  (1 ≤ n)%Z →
  run (total f) sched s0 = Ok s → main_pc s = MExit →
  workerResults s ≡ₚ f <$> js.
Proof.
  intros Hn Hrun Hpc.
  destruct (reach_exit _ _ Hrun Hpc) as (_ & Hb & Hall).
  pose proof (reach_inv _ _ Hrun) as Hinv.
  pose proof (inv_results _ _ _ _ Hinv) as Hres.
  pose proof (inv_workers _ _ _ _ Hinv) as Hlen.
  assert (WReturned ∈ workers s) as Hin.
  { destruct (workers s) as [|w ws]; [simpl in Hlen; lia|].
    apply Forall_cons in Hall as [-> _]. by left. }
  destruct (inv_returned _ _ _ _ Hinv Hin) as [_ Hbj].
  rewrite Hb, Hbj, Hpc, (all_returned_in_flight _ Hall) in Hres.
  simpl in Hres. by rewrite app_nil_r in Hres.
Qed.

Lemma reach_progress sched s :
  run (total f) sched s0 = Ok s →
  main_pc s ≠ MExit →
  (1 ≤ rcap)%Z →
  (submitting (main_pc s) = true →
   (1 ≤ n)%Z ∧ (1 ≤ qcap)%Z
   ∧ (Z.of_nat (length js) ≤ qcap + n + rcap)%Z) →
  ∃ a s', step (total f) a s = Ok s'.
Proof.
  intros Hrun Hne Hr Hsub. destruct (reach_caps _ _ Hrun) as [Hq Hrc].
  eapply progress; eauto using reach_inv; [by rewrite Hrc|].
  intros Hs. destruct (Hsub Hs) as (? & ? & ?). rewrite Hq, Hrc. lia.
Qed.

End Pool.

(** *** The claims on the worker pool *)

(** C1, as the code has it.  For every list of jobs and every worker
    count of at least one, under every interleaving: along the run each
    job is accounted for exactly once (collected, queued in [results],
    held by a worker, queued in [jobs] or still to be sent), and when
    [main] has read the result stream to its end it has collected
    exactly one result per job.  No interleaving panics, none is longer
    than [fuel s0], and with buffered channels and no more jobs than the
    queue capacity, the worker count and the result capacity together,
    some goroutine can always move until [main] is through. *)
Theorem pool_exactly_once (f : Z → Z) (n qcap rcap : Z) (js : list Z)
    (s0 : pool) (sched : list actor) (s : pool) :
  (1 ≤ n)%Z →
  new_pool n qcap rcap js = Ok s0 →
  run (total f) sched s0 = Ok s →
  workerResults s ++ buf (results s) ++ in_flight (workers s)
    ++ (f <$> (buf (jobs s) ++ pending (main_pc s))) ≡ₚ f <$> js
  ∧ (main_pc s = MExit → workerResults s ≡ₚ f <$> js)
  ∧ length sched ≤ fuel s0
  ∧ (∀ a msg, step (total f) a s ≠ Panic msg)
  ∧ ((1 ≤ qcap)%Z → (1 ≤ rcap)%Z →
     (Z.of_nat (length js) ≤ qcap + n + rcap)%Z →
     main_pc s ≠ MExit → ∃ a s', step (total f) a s = Ok s').
Proof.
  intros Hn Hstart Hrun.
  pose proof (reach_inv f _ _ _ _ _ Hstart _ _ Hrun) as Hinv.
  split; [apply (inv_results _ _ _ _ Hinv)|].
  split; [eauto using reach_delivered|].
  split; [apply run_fuel in Hrun; lia|].
  split; [eauto using no_panic|].
  intros Hq Hr Hlen Hne. eapply reach_progress; eauto.
Qed.

Lemma pool_exactly_once_witness :
  ∃ s0 s,
    new_pool 3 5 5 [1; 2; 3; 4; 5]%Z = Ok s0
    ∧ run (total double) in_order s0 = Ok s
    ∧ main_pc s = MExit
    ∧ workerResults s ≡ₚ double <$> [1; 2; 3; 4; 5]%Z.
Proof.
  eexists _, _.
  split; [reflexivity|]. split; [vm_compute; reflexivity|].
  split; [reflexivity|].
  refine (proj1 (proj2 (pool_exactly_once double 3 5 5 [1; 2; 3; 4; 5]%Z
                          _ in_order _ _ _ _)) _);
    [lia|reflexivity|vm_compute; reflexivity|reflexivity].
Defined.

(** C1, as stated, fails for a long list of jobs: [main] sends every
    job before it reads the first result.  In its pool (three workers,
    capacities five and five) with fourteen jobs instead of five, the
    interleaving [fill_both] ends where no goroutine can move: five
    results wait in [results] unread, the workers hold the results of
    jobs 6, 7 and 8, jobs 9 to 13 wait in [jobs], and none of these
    submitted jobs ever gets its result into the stream. *)
Lemma pool_blocks_with_jobs_unanswered :
  ∃ s0 s,
    new_pool 3 5 5 (seqZ 1 14) = Ok s0
    ∧ run (total double) fill_both s0 = Ok s
    ∧ main_pc s = MSubmit [14%Z]
    ∧ workerResults s = []
    ∧ buf (results s) = [2; 4; 6; 8; 10]%Z
    ∧ in_flight (workers s) = [12; 14; 16]%Z
    ∧ buf (jobs s) = [9; 10; 11; 12; 13]%Z
    ∧ ∀ a, step (total double) a s = Blocked.
Proof.
  eexists _, _.
  split; [reflexivity|]. split; [vm_compute; reflexivity|].
  do 5 (split; [reflexivity|]).
  intros [|[|[|[|i]]]|]; reflexivity.
Qed.

(** C2, as the code has it.  In [main]'s pool (three workers, both
    capacities five, the jobs one to five, the transform doubling) every
    interleaving is at most [fuel s0] steps long, never panics, can go on
    until [main] has read the result stream to its end, and then
    [workerResults] is a permutation of 2, 4, 6, 8, 10.  The pool has one
    delivery mode, and it does not fix the order. *)
Theorem main_pool_results (s0 : pool) (sched : list actor) (s : pool) :
  main_pool = Ok s0 →
  run (total double) sched s0 = Ok s →
  length sched ≤ fuel s0
  ∧ (∀ a msg, step (total double) a s ≠ Panic msg)
  ∧ (main_pc s ≠ MExit → ∃ a s', step (total double) a s = Ok s')
  ∧ (main_pc s = MExit → workerResults s ≡ₚ [2; 4; 6; 8; 10]%Z).
Proof.
  unfold main_pool. intros Hstart Hrun.
  pose proof (reach_inv double _ _ _ _ _ Hstart _ _ Hrun) as Hinv.
  split; [apply run_fuel in Hrun; lia|].
  split; [eauto using no_panic|].
  split.
  - intros Hne. eapply reach_progress; eauto; [lia|].
    intros _. simpl. lia.
  - intros Hpc.
    by rewrite (reach_delivered double _ _ _ _ _ Hstart _ _ ltac:(lia) Hrun Hpc).
Qed.

Lemma main_pool_results_witness :
  ∃ s0 s,
    main_pool = Ok s0
    ∧ run (total double) in_order s0 = Ok s
    ∧ length in_order = fuel s0
    ∧ main_pc s = MExit
    ∧ workerResults s = [2; 4; 6; 8; 10]%Z
    ∧ workerResults s ≡ₚ [2; 4; 6; 8; 10]%Z.
Proof.
  eexists _, _.
  split; [reflexivity|]. split; [vm_compute; reflexivity|].
  split; [reflexivity|]. split; [reflexivity|]. split; [reflexivity|].
  refine (proj2 (proj2 (proj2 (main_pool_results _ in_order _ _ _))) _);
    [reflexivity|vm_compute; reflexivity|reflexivity].
Defined.

(** C2, as stated, fails: the pool has no ordered mode, and the
    interleaving [overtaking] ends with the results 4, 2, 6, 8, 10. *)
Lemma main_pool_order_varies :
  ∃ s0 s,
    main_pool = Ok s0
    ∧ run (total double) overtaking s0 = Ok s
    ∧ main_pc s = MExit
    ∧ workerResults s = [4; 2; 6; 8; 10]%Z
    ∧ workerResults s ≠ [2; 4; 6; 8; 10]%Z.
Proof.
  eexists _, _.
  split; [reflexivity|]. split; [vm_compute; reflexivity|].
  split; [reflexivity|]. split; [reflexivity|]. discriminate.
Qed.

(** C3, as the code has it.  From the start of any pool, under every
    interleaving: if [results] is closed then every one of the workers
    has returned; the closing goroutine is past its [wg.Wait()] only when
    the counter is zero and every worker has returned, so it closes
    [results] after having seen that; and when [main] has found the
    stream closed, every worker has returned and nothing is left in
    [results].  The other way round holds in the end only, and for a
    pool that has workers: once they have all returned they stay so,
    every continuation is finite, and as long as [results] is open
    [main] or the closing goroutine can move; so [results] does get
    closed. *)
Theorem results_closed_after_workers (f : Z → Z) (n qcap rcap : Z)
    (js : list Z) (s0 : pool) (sched : list actor) (s : pool) :
  new_pool n qcap rcap js = Ok s0 →
  run (total f) sched s0 = Ok s →
  (closed (results s) = true →
   length (workers s) = Z.to_nat n
   ∧ Forall (λ w, w = WReturned) (workers s))
  ∧ (closer s = CClose ∨ closer s = CExit →
     wg s = 0 ∧ Forall (λ w, w = WReturned) (workers s))
  ∧ (closed (results s) = true → closer s = CExit)
  ∧ (main_pc s = MExit →
     closed (results s) = true ∧ buf (results s) = []
     ∧ Forall (λ w, w = WReturned) (workers s))
  ∧ ((1 ≤ n)%Z → Forall (λ w, w = WReturned) (workers s) →
     ∀ sched' s', run (total f) sched' s = Ok s' →
       length sched' ≤ fuel s
       ∧ Forall (λ w, w = WReturned) (workers s')
       ∧ (closed (results s') = false →
          ∃ a s'', (a = Main ∨ a = Closer)
                   ∧ step (total f) a s' = Ok s'')).
Proof.
  intros Hstart Hrun.
  pose proof (reach_inv f _ _ _ _ _ Hstart _ _ Hrun) as Hinv.
  pose proof (inv_closer _ _ _ _ Hinv) as Hcl.
  assert (closed (results s) = true → closer s = CExit) as Hclosed.
  { intros Hc. destruct (closer s); intuition congruence. }
  assert (closer s = CClose ∨ closer s = CExit → wg s = 0) as Hwg.
  { intros [Hc|Hc]; rewrite Hc in Hcl; tauto. }
  split; [|split; [|split; [|split]]].
  - intros Hc. split; [apply (inv_workers _ _ _ _ Hinv)|].
    eapply reach_returned; eauto.
  - intros Hc. split; [auto|]. eapply reach_returned; eauto.
  - done.
  - eauto using reach_exit.
  - intros Hn Hall sched' s' Hrun'.
    assert (run (total f) (sched ++ sched') s0 = Ok s') as Hboth.
    { by rewrite run_app, Hrun. }
    pose proof (reach_inv f _ _ _ _ _ Hstart _ _ Hboth) as Hinv'.
    pose proof (run_all_returned _ _ _ _ Hrun' Hall) as Hw.
    split; [apply run_fuel in Hrun'; lia|].
    split; [by rewrite Hw|].
    intros Hopen. eapply join_progress; eauto; [lia|by rewrite Hw].
Qed.

Lemma results_closed_after_workers_witness :
  ∃ s0 s,
    main_pool = Ok s0
    ∧ run (total double) in_order s0 = Ok s
    ∧ closed (results s) = true
    ∧ length (workers s) = 3
    ∧ Forall (λ w, w = WReturned) (workers s).
Proof.
  eexists _, _.
  split; [reflexivity|]. split; [vm_compute; reflexivity|].
  split; [reflexivity|].
  refine (proj1 (results_closed_after_workers double 3 5 5
                   [1; 2; 3; 4; 5]%Z _ in_order _ _ _) _);
    [reflexivity|vm_compute; reflexivity|reflexivity].
Defined.

(** C3, as stated, fails in one direction: after the interleaving
    [workers_return] every worker of [main]'s pool has returned and
    [results] is still open (the closing goroutine has not yet run), so
    "closed if and only if every worker has terminated" does not hold in
    that state. *)
Lemma results_open_with_workers_done :
  ∃ s0 s,
    main_pool = Ok s0
    ∧ run (total double) workers_return s0 = Ok s
    ∧ Forall (λ w, w = WReturned) (workers s)
    ∧ closed (results s) = false
    ∧ ¬ (closed (results s) = true
         ↔ Forall (λ w, w = WReturned) (workers s)).
Proof.
  eexists _, _.
  split; [reflexivity|]. split; [vm_compute; reflexivity|].
  assert (Forall (λ w, w = WReturned) [WReturned; WReturned; WReturned])
    as Hall by (repeat constructor).
  split; [exact Hall|]. split; [reflexivity|].
  intros [_ Hiff]. specialize (Hiff Hall). discriminate.
Qed.

(** C4.  From the start of any pool, under every interleaving: a worker
    standing at its [range] loop leaves the loop in its next action
    exactly when the job queue is closed and empty; a worker returns
    from nowhere else (it is given its two channels and the wait group,
    and no signal to watch, so the second way out that the claim names
    never arises); and once the queue is closed (with a buffered
    [results], as the source makes it), wherever the workers stand, every
    continuation is a finite run in which some goroutine can move until
    [main] is through, and by then every worker has returned. *)
Theorem worker_stops_iff (f : Z → Z) (n qcap rcap : Z) (js : list Z)
    (s0 : pool) (sched : list actor) (s : pool) :
  new_pool n qcap rcap js = Ok s0 →
  run (total f) sched s0 = Ok s →
  (∀ i, workers s !! i = Some WRange →
     ((∃ s', worker (total f) i s = Ok s'
             ∧ workers s' !! i = Some WReturned)
      ↔ closed (jobs s) = true ∧ buf (jobs s) = []))
  ∧ (∀ i s', worker (total f) i s = Ok s' →
       workers s' !! i = Some WReturned →
       workers s !! i = Some WRange
       ∧ closed (jobs s) = true ∧ buf (jobs s) = [])
  ∧ (closed (jobs s) = true → (1 ≤ rcap)%Z →
     ∀ sched' s', run (total f) sched' s = Ok s' →
       length sched' ≤ fuel s
       ∧ (main_pc s' ≠ MExit → ∃ a s'', step (total f) a s' = Ok s'')
       ∧ (main_pc s' = MExit →
          Forall (λ w, w = WReturned) (workers s'))).
Proof.
  intros Hstart Hrun.
  pose proof (reach_inv f _ _ _ _ _ Hstart _ _ Hrun) as Hinv.
  assert (∀ i s', worker (total f) i s = Ok s' →
            workers s' !! i = Some WReturned →
            workers s !! i = Some WRange
            ∧ closed (jobs s) = true ∧ buf (jobs s) = []) as Honly.
  { intros i s' Hstep Hw'.
    apply worker_ok in Hstep
      as [(j & c & Hw & _ & ->)
         |[(m & Hw & Hb & Hc & _ & _)|(v & c & Hw & _ & ->)]].
    - pose proof (lookup_lt_Some _ _ _ Hw) as Hlt.
      simpl in Hw'. rewrite list_lookup_insert_eq in Hw' by done.
      discriminate.
    - done.
    - pose proof (lookup_lt_Some _ _ _ Hw) as Hlt.
      simpl in Hw'. rewrite list_lookup_insert_eq in Hw' by done.
      discriminate. }
  split; [|split; [exact Honly|]].
  - intros i Hw. split.
    + intros (s' & Hstep & Hw'). by apply (Honly i s').
    + intros [Hc Hb].
      eapply worker_return_enabled; eauto using inv_wg.
  - intros Hc Hr sched' s' Hrun'.
    assert (run (total f) (sched ++ sched') s0 = Ok s') as Hall.
    { by rewrite run_app, Hrun. }
    split; [apply run_fuel in Hrun'; lia|]. split.
    + intros Hne. eapply reach_progress; eauto.
      intros Hsub.
      pose proof (reach_inv f _ _ _ _ _ Hstart _ _ Hall) as Hinv'.
      pose proof (inv_jobs_closed _ _ _ _ Hinv') as Hjc'.
      pose proof (run_jobs_closed _ _ _ _ Hc Hrun') as Hc'.
      destruct (main_pc s'); simpl in *; congruence.
    + intros Hpc. eapply reach_exit; eauto.
Qed.

Lemma worker_stops_iff_witness :
  ∃ s0 s,
    main_pool = Ok s0
    ∧ run (total double) one_worker_works s0 = Ok s
    ∧ workers s !! 0 = Some WRange
    ∧ closed (jobs s) = true ∧ buf (jobs s) = []
    ∧ ∃ s', worker (total double) 0 s = Ok s'
            ∧ workers s' !! 0 = Some WReturned.
Proof.
  eexists _, _.
  split; [reflexivity|]. split; [vm_compute; reflexivity|].
  split; [reflexivity|]. split; [reflexivity|]. split; [reflexivity|].
  refine (proj2 (proj1 (worker_stops_iff double 3 5 5 [1; 2; 3; 4; 5]%Z
                          _ one_worker_works _ _ _) 0 _) _);
    [reflexivity|vm_compute; reflexivity|reflexivity|split; reflexivity].
Defined.

(** C5, as the code has it.  Building the pool validates nothing of its
    own.  A capacity that is negative, or beyond what [make] accepts,
    fails with the run-time panic of [make].  The worker count is never
    looked at: if the pool is built for one count it is built for every
    other, with the capacities five and five of the source it is built
    for every count, and it then has [Z.to_nat n] workers, none at all
    when the count is below one.  Such a pool without workers takes no
    job from the queue and delivers no result, whatever is submitted. *)
Theorem new_pool_validation (n qcap rcap : Z) (js : list Z) :
  ((qcap < 0 ∨ rcap < 0 ∨ max_chan_size < qcap ∨ max_chan_size < rcap)%Z →
   new_pool n qcap rcap js = Panic "makechan: size out of range")
  ∧ (∀ s, new_pool n qcap rcap js = Ok s →
       length (workers s) = Z.to_nat n
       ∧ wg s = Z.to_nat n
       ∧ ((n < 1)%Z → workers s = [])
       ∧ ∀ n', ∃ s', new_pool n' qcap rcap js = Ok s')
  ∧ (∃ s, new_pool n 5 5 js = Ok s)
  ∧ ((n < 1)%Z →
     ∀ t s0 sched s,
       new_pool n qcap rcap js = Ok s0 → run t sched s0 = Ok s →
       workers s = [] ∧ invoked s = [] ∧ buf (results s) = []
       ∧ workerResults s = []).
Proof.
  split; [|split; [|split]].
  - unfold new_pool. intros Hout.
    destruct (make_chan_cases qcap) as [[_ ->]|[? ->]]; [done|].
    destruct (make_chan_cases rcap) as [[_ ->]|[? ->]]; [done|lia].
  - intros s Hs. pose proof Hs as (_ & _ & ->)%new_pool_ok. simpl.
    split; [apply length_replicate|]. split; [done|].
    split; [intros Hn; by replace (Z.to_nat n) with 0 by lia|].
    intros n'. revert Hs. unfold new_pool.
    destruct (make_chan qcap); try done.
    destruct (make_chan rcap); try done. eauto.
  - by eexists.
  - intros Hn t s0 sched s (_ & _ & ->)%new_pool_ok Hrun.
    apply (run_no_workers _ _ _ _ Hrun). simpl.
    by replace (Z.to_nat n) with 0 by lia.
Qed.

Lemma new_pool_validation_witness :
  new_pool 3 (-1) 5 [1; 2; 3; 4; 5]%Z = Panic "makechan: size out of range"
  ∧ new_pool 3 5 (2 ^ 60) [1; 2; 3; 4; 5]%Z
    = Panic "makechan: size out of range"
  ∧ ∃ s, new_pool 0 5 5 [1; 2; 3; 4; 5]%Z = Ok s.
Proof.
  split; [|split].
  - apply (proj1 (new_pool_validation 3 (-1) 5 [1; 2; 3; 4; 5]%Z)). lia.
  - apply (proj1 (new_pool_validation 3 5 (2 ^ 60) [1; 2; 3; 4; 5]%Z)).
    rewrite max_chan_size_eq. lia.
  - apply (proj1 (proj2 (proj2
      (new_pool_validation 0 0 0 [1; 2; 3; 4; 5]%Z)))).
Defined.

(** C5, as stated, fails: with a worker count of zero the pool is built,
    without any worker and without any error; [main] then sends its
    jobs, and the result stream closes empty. *)
Lemma new_pool_accepts_zero_workers :
  ∃ s0 s,
    new_pool 0 5 5 [1; 2; 3; 4; 5]%Z = Ok s0
    ∧ workers s0 = []
    ∧ run (total double) (submit_all ++ [Closer; Closer; Main]) s0 = Ok s
    ∧ main_pc s = MExit
    ∧ workerResults s = [].
Proof.
  eexists _, _.
  split; [reflexivity|]. split; [reflexivity|].
  split; [vm_compute; reflexivity|]. split; reflexivity.
Qed.

(** C6, as the code has it.  From the start of any pool, under every
    interleaving: once the job queue is closed, a send on it enqueues
    nothing and is the run-time panic "send on closed channel"; [main]
    has then no job left to send, and its own next action never
    panics. *)
Theorem send_after_close (f : Z → Z) (n qcap rcap : Z) (js : list Z)
    (s0 : pool) (sched : list actor) (s : pool) (job : Z) :
  new_pool n qcap rcap js = Ok s0 →
  run (total f) sched s0 = Ok s →
  closed (jobs s) = true →
  chan_send (jobs s) job = Panic "send on closed channel"
  ∧ pending (main_pc s) = []
  ∧ submitting (main_pc s) = false
  ∧ (∀ msg, main_step s ≠ Panic msg).
Proof.
  intros Hstart Hrun Hc.
  pose proof (reach_inv f _ _ _ _ _ Hstart _ _ Hrun) as Hinv.
  pose proof (inv_jobs_closed _ _ _ _ Hinv) as Hjc.
  split; [unfold chan_send; by rewrite Hc|].
  split; [destruct (main_pc s); simpl in *; congruence|].
  split; [destruct (main_pc s); simpl in *; congruence|].
  intros msg. apply (no_panic f _ js Main s msg Hinv).
Qed.

Lemma send_after_close_witness :
  ∃ s0 s,
    main_pool = Ok s0
    ∧ run (total double) submit_all s0 = Ok s
    ∧ closed (jobs s) = true
    ∧ chan_send (jobs s) 6 = Panic "send on closed channel".
Proof.
  eexists _, _.
  split; [reflexivity|]. split; [vm_compute; reflexivity|].
  split; [reflexivity|].
  refine (proj1 (send_after_close double 3 5 5 [1; 2; 3; 4; 5]%Z
                   _ submit_all _ 6 _ _ _));
    [reflexivity|vm_compute; reflexivity|reflexivity].
Defined.

(** C6, as stated, fails: after [main]'s pool has run to its end the
    job queue is closed, and submitting a sixth job is no returned
    error: the send panics. *)
Lemma submit_after_close_panics :
  ∃ s0 s,
    main_pool = Ok s0
    ∧ run (total double) in_order s0 = Ok s
    ∧ main_pc s = MExit
    ∧ closed (jobs s) = true
    ∧ chan_send (jobs s) 6 = Panic "send on closed channel"
    ∧ ¬ (∃ c, chan_send (jobs s) 6 = Ok c)
    ∧ chan_send (jobs s) 6 ≠ Blocked.
Proof.
  eexists _, _.
  split; [reflexivity|]. split; [vm_compute; reflexivity|].
  split; [reflexivity|]. split; [reflexivity|]. split; [reflexivity|].
  split; [intros [c [=]]|discriminate].
Qed.



(** *** Fibonacci *)

Local Open Scope Z_scope.

Lemma fib_SS k : fib (S (S k)) = fib (S k) + fib k.
Proof. done. Qed.

Lemma fib_pair_spec k : fib_pair k = (fib k, fib (S k)).
Proof.
  induction k as [|k IH]; [done|].
  cbn [fib_pair]. rewrite IH, fib_SS. f_equal. lia.
Qed.

Lemma fib_fast k : fib k = (fib_pair k).1.
Proof. by rewrite fib_pair_spec. Qed.

Lemma fib_nonneg k : 0 ≤ fib k ∧ 0 ≤ fib (S k).
Proof.
  induction k as [|k [IH1 IH2]]; [simpl; lia|].
  rewrite fib_SS. lia.
Qed.

Lemma fib_mono k k' : (k ≤ k')%nat → fib k ≤ fib k'.
Proof.
  induction 1 as [|k' _ IH]; [lia|].
  destruct k' as [|k'']; [simpl in *; lia|].
  rewrite fib_SS. pose proof (fib_nonneg k''). lia.
Qed.

Lemma first_fibonacci_seq n :
  first_fibonacci n = fib <$> seq 0 (Z.to_nat n).
Proof.
  unfold first_fibonacci.
  destruct (Z.leb_spec n 0).
  { by replace (Z.to_nat n) with 0%nat by lia. }
  destruct (Z.eqb_spec n 1) as [->|]; done.
Qed.

Lemma first_fibonacci_fast n :
  first_fibonacci n = (λ k, (fib_pair k).1) <$> seq 0 (Z.to_nat n).
Proof.
  rewrite first_fibonacci_seq. apply list_fmap_ext. intros _ k _.
  apply fib_fast.
Qed.

(** Each later element is the sum of the previous two. *)
Lemma first_fibonacci_rec n (i : nat) c :
  first_fibonacci n !! S (S i) = Some c →
  ∃ a b, first_fibonacci n !! i = Some a
         ∧ first_fibonacci n !! S i = Some b ∧ c = a + b.
Proof.
  rewrite first_fibonacci_seq, !list_lookup_fmap.
  intros (k & [-> Hlt]%lookup_seq & ->)%fmap_Some.
  exists (fib i), (fib (S i)).
  rewrite !lookup_seq_lt by lia. simpl. split; [done|]. split; [done|].
  lia.
Qed.

Lemma from_end_fib (m b : nat) (missing : option Z) :
  (1 ≤ b ≤ m)%nat →
  from_end missing (fib <$> seq 0 m) b = Some (fib (m - b)).
Proof.
  intros Hb. unfold from_end. rewrite length_fmap, length_seq.
  destruct (decide (b ≤ m)%nat); [|lia].
  rewrite list_lookup_fmap, lookup_seq_lt by lia. done.
Qed.

Lemma while_push_fib (missing : option Z) fuel n (m : nat) :
  (2 ≤ m)%nat → n - Z.of_nat m ≤ Z.of_nat fuel →
  while_push Z.add missing fuel n (fib <$> seq 0 m)
  = Some (fib <$> seq 0 (m `max` Z.to_nat n)).
Proof.
  revert m. induction fuel as [|fuel IH]; intros m Hm Hfuel;
    cbn [while_push]; rewrite length_fmap, length_seq;
    destruct (Z.ltb_spec (Z.of_nat m) n) as [Hlt|Hge];
    try lia; try (by replace (m `max` Z.to_nat n)%nat with m by lia).
  rewrite !from_end_fib by lia.
  replace (fib (m - 1) + fib (m - 2)) with (fib m).
  - change [fib m] with (fib <$> [(0 + m)%nat]).
    rewrite <- (fmap_app fib (seq 0 m)), <- (seq_S m 0).
    rewrite IH by lia. do 3 f_equal. lia.
  - destruct m as [|[|m]]; try lia.
    rewrite fib_SS. do 2 f_equal; lia.
Qed.

(** Ruby's [fibonacci] returns the claimed sequence for every integer. *)
Lemma ruby_fibonacci_spec n :
  MathUtils.fibonacci n = Some (first_fibonacci n).
Proof.
  unfold MathUtils.fibonacci, first_fibonacci.
  destruct (Z.leb_spec n 0); [done|].
  destruct (Z.eqb_spec n 1); [done|].
  change [0; 1] with (fib <$> seq 0 2).
  rewrite while_push_fib by lia. do 3 f_equal. lia.
Qed.

Lemma wrap_small z : GoInt.in_range z → GoInt.wrap z = z.
Proof.
  unfold GoInt.in_range, GoInt.min_int, GoInt.max_int, GoInt.wrap.
  intros Hz. rewrite Z.mod_small; lia.
Qed.

Lemma wrap_add a b :
  GoInt.add (GoInt.wrap a) (GoInt.wrap b) = GoInt.wrap (a + b).
Proof.
  unfold GoInt.add, GoInt.wrap. f_equal.
  replace ((a + 2 ^ 63) mod 2 ^ 64 - 2 ^ 63
           + ((b + 2 ^ 63) mod 2 ^ 64 - 2 ^ 63) + 2 ^ 63)
    with ((a + 2 ^ 63) mod 2 ^ 64 + (b + 2 ^ 63) mod 2 ^ 64 - 2 ^ 63)
    by lia.
  rewrite Zminus_mod, <- Zplus_mod, <- Zminus_mod. f_equal. lia.
Qed.

Lemma fill_fib count (i N : nat) :
  (2 ≤ i)%nat → (i + count = N)%nat →
  Go.fill count i (((λ k, GoInt.wrap (fib k)) <$> seq 0 i)
                   ++ replicate count 0)
  = Some ((λ k, GoInt.wrap (fib k)) <$> seq 0 N).
Proof.
  revert i. induction count as [|count IH]; intros i Hi HN; cbn [Go.fill].
  - rewrite app_nil_r. do 3 f_equal. lia.
  - set (g := λ k, GoInt.wrap (fib k)).
    assert (length (g <$> seq 0 i) = i) as Hlen
      by (by rewrite length_fmap, length_seq).
    rewrite !lookup_app_l by (rewrite Hlen; lia).
    rewrite !list_lookup_fmap, !lookup_seq_lt by lia. simpl.
    rewrite length_app, Hlen. simpl. rewrite length_replicate.
    destruct (decide (i < i + S count)%nat); [|lia].
    rewrite insert_app_r_alt by (rewrite Hlen; lia).
    rewrite Hlen, Nat.sub_diag. simpl.
    unfold g at 2 3. rewrite wrap_add.
    replace (fib (i - 1) + fib (i - 2)) with (fib i).
    + rewrite (cons_middle (GoInt.wrap (fib i))), app_assoc.
      change [GoInt.wrap (fib i)] with (g <$> [(0 + i)%nat]).
      rewrite <- fmap_app, <- seq_S. apply IH; lia.
    + destruct i as [|[|i]]; try lia.
      rewrite fib_SS. do 2 f_equal; lia.
Qed.

(** Go's [Fibonacci] never indexes out of range, and returns the claimed
    sequence with each number wrapped to 64 bits. *)
Lemma go_fibonacci_wraps n :
  Go.Fibonacci n = Some (GoInt.wrap <$> first_fibonacci n).
Proof.
  unfold Go.Fibonacci, first_fibonacci.
  destruct (Z.leb_spec n 0); [done|].
  destruct (Z.eqb_spec n 1); [done|].
  destruct (Z.to_nat n) as [|[|c]] eqn:HN; try lia.
  replace (S (S c) - 2)%nat with c by lia.
  rewrite <- list_fmap_compose.
  change (<[1%nat:=1]> (<[0%nat:=0]> (replicate (S (S c)) 0)))
    with (((λ k, GoInt.wrap (fib k)) <$> seq 0 2) ++ replicate c 0).
  apply fill_fib; lia.
Qed.

Lemma fib_92 : fib 92 = 7540113804746346429.
Proof. rewrite fib_fast. by vm_compute. Qed.

Lemma first_fibonacci_in_range n :
  n ≤ 93 → Forall GoInt.in_range (first_fibonacci n).
Proof.
  intros Hn. rewrite first_fibonacci_seq. apply Forall_fmap, Forall_forall.
  intros k [_ Hk]%elem_of_seq. simpl.
  pose proof (fib_nonneg k) as [H0 _].
  pose proof (fib_mono k 92 ltac:(lia)) as Hle. rewrite fib_92 in Hle.
  unfold GoInt.in_range, GoInt.min_int, GoInt.max_int. lia.
Qed.

Lemma go_fibonacci_spec n :
  n ≤ 93 → Go.Fibonacci n = Some (first_fibonacci n).
Proof.
  intros Hn. rewrite go_fibonacci_wraps. f_equal.
  pose proof (first_fibonacci_in_range n Hn) as Hall.
  induction Hall as [|z l Hz _ IH]; [done|].
  csimpl. by rewrite wrap_small, IH.
Qed.

(** The doubles of the TypeScript and JavaScript [fibonacci] hold the
    claimed integers exactly while these stay below 2^53. *)
Lemma ts_fibonacci_check :
  Forall (λ n, fmap (M := list) Number.to_Z <$> TS.fibonacci n
               = Some (Some <$> ((λ k, (fib_pair k).1)
                                   <$> seq 0 (Z.to_nat n))))
         (seqZ 1 79).
Proof. apply (bool_decide_unpack _). by vm_compute. Qed.

Lemma js_fibonacci_check :
  Forall (λ n, fmap (M := list) Number.to_Z <$> JS.fibonacci n
               = Some (Some <$> ((λ k, (fib_pair k).1)
                                   <$> seq 0 (Z.to_nat n))))
         (seqZ 1 79).
Proof. apply (bool_decide_unpack _). by vm_compute. Qed.

Lemma float_fibonacci_exact (fibonacci : Z → option (list Number.number)) n :
  Forall (λ n, fmap (M := list) Number.to_Z <$> fibonacci n
               = Some (Some <$> ((λ k, (fib_pair k).1)
                                   <$> seq 0 (Z.to_nat n))))
         (seqZ 1 79) →
  (∀ n, n ≤ 0 → fibonacci n = Some []) →
  n ≤ 79 →
  fmap (M := list) Number.to_Z <$> fibonacci n
  = Some (Some <$> first_fibonacci n).
Proof.
  intros Hcheck Hneg Hn. destruct (Z.le_gt_cases n 0) as [H0|H0].
  - rewrite (Hneg n H0). unfold first_fibonacci.
    by destruct (Z.leb_spec n 0); [|lia].
  - rewrite first_fibonacci_fast.
    apply (proj1 (Forall_forall _ _) Hcheck). apply elem_of_seqZ. lia.
Qed.

(** C8, as the code has it.  Ruby's [fibonacci] returns the claimed
    sequence for every integer [n] (empty for [n ≤ 0], [0] for [n = 1],
    the first [n] Fibonacci numbers otherwise, each later one the sum of
    the previous two).  Go's [Fibonacci] returns it with each number
    wrapped to 64 bits, which changes nothing up to [n = 93].  The
    TypeScript and JavaScript functions return it in doubles, which hold
    the exact numbers up to [n = 79].  So the four agree for every
    integer [n ≤ 79]. *)
Theorem fibonacci_agree (n : Z) :
  MathUtils.fibonacci n = Some (first_fibonacci n)
  ∧ Go.Fibonacci n = Some (GoInt.wrap <$> first_fibonacci n)
  ∧ (n ≤ 93 → Go.Fibonacci n = Some (first_fibonacci n))
  ∧ (n ≤ 79 →
     fmap (M := list) Number.to_Z <$> TS.fibonacci n
     = Some (Some <$> first_fibonacci n)
     ∧ fmap (M := list) Number.to_Z <$> JS.fibonacci n
       = Some (Some <$> first_fibonacci n))
  ∧ (∀ (i : nat) c,
       first_fibonacci n !! S (S i) = Some c →
       ∃ a b, first_fibonacci n !! i = Some a
              ∧ first_fibonacci n !! S i = Some b ∧ c = a + b).
Proof.
  split; [apply ruby_fibonacci_spec|].
  split; [apply go_fibonacci_wraps|].
  split; [apply go_fibonacci_spec|].
  split; [|apply first_fibonacci_rec].
  intros Hn. split.
  - apply float_fibonacci_exact; [apply ts_fibonacci_check| |done].
    intros m Hm. unfold TS.fibonacci. by destruct (Z.leb_spec m 0); [|lia].
  - apply float_fibonacci_exact; [apply js_fibonacci_check| |done].
    intros m Hm. unfold JS.fibonacci. by destruct (Z.leb_spec m 0); [|lia].
Qed.

Lemma fibonacci_agree_witness :
  first_fibonacci 10 = [0; 1; 1; 2; 3; 5; 8; 13; 21; 34]
  ∧ MathUtils.fibonacci 10 = Some (first_fibonacci 10)
  ∧ Go.Fibonacci 10 = Some (first_fibonacci 10)
  ∧ fmap (M := list) Number.to_Z <$> TS.fibonacci 10
    = Some (Some <$> first_fibonacci 10)
  ∧ fmap (M := list) Number.to_Z <$> JS.fibonacci 10
    = Some (Some <$> first_fibonacci 10).
Proof.
  split; [reflexivity|].
  split; [apply (proj1 (fibonacci_agree 10))|].
  split; [apply (proj1 (proj2 (proj2 (fibonacci_agree 10)))); lia|].
  apply (proj1 (proj2 (proj2 (proj2 (fibonacci_agree 10))))). lia.
Defined.

(** C8, as stated, fails for large [n].  At [n = 94] Ruby's last number
    is 12200160415121876738 and Go's, wrapped to 64 bits, is negative; at
    [n = 80] Ruby's last number is 14472334024676221 and the double of
    TypeScript and JavaScript holds 14472334024676220. *)
Lemma fibonacci_disagree :
  (∃ r g,
     MathUtils.fibonacci 94 = Some r ∧ Go.Fibonacci 94 = Some g
     ∧ r !! 93%nat = Some 12200160415121876738
     ∧ g !! 93%nat = Some (-6246583658587674878))
  ∧ (∃ r t j,
       MathUtils.fibonacci 80 = Some r
       ∧ TS.fibonacci 80 = Some t ∧ JS.fibonacci 80 = Some j
       ∧ r !! 79%nat = Some 14472334024676221
       ∧ Number.to_Z <$> t !! 79%nat = Some (Some 14472334024676220)
       ∧ Number.to_Z <$> j !! 79%nat = Some (Some 14472334024676220)).
Proof.
  split.
  - eexists _, _. split; [by vm_compute|]. split; [by vm_compute|].
    split; by vm_compute.
  - eexists _, _, _. split; [by vm_compute|]. split; [by vm_compute|].
    split; [by vm_compute|]. split; [by vm_compute|]. split; by vm_compute.
Qed.

(** *** Factorial *)

Lemma foldl_mul_seqZ k : foldl Z.mul 1 (seqZ 1 (Z.of_nat k)) = product_upto k.
Proof.
  induction k as [|k IH]; [done|].
  rewrite seqZ_S, foldl_app, IH. cbn [foldl product_upto]. lia.
Qed.

(** Ruby's [factorial] returns the claimed value for every integer. *)
Lemma ruby_factorial_spec n :
  MathUtils.factorial n = Some (product_or_one n).
Proof.
  unfold MathUtils.factorial, product_or_one.
  destruct (Z.leb_spec n 1); [done|].
  rewrite <- foldl_mul_seqZ, Z2Nat.id by lia.
  rewrite seqZ_cons by lia. done.
Qed.

Lemma js_factorial_check :
  Forall (λ n, Number.to_Z <$> JS.factorial n
               = Some (Some (product_upto (Z.to_nat n))))
         (seqZ 2 21).
Proof. apply (bool_decide_unpack _). by vm_compute. Qed.

(** From 23 to 170 the double that JavaScript's [factorial] returns is
    not the product (from 171 on it is infinite). *)
Lemma js_factorial_differs :
  Forall (λ n, Number.to_Z <$> JS.factorial n
               ≠ Some (Some (product_upto (Z.to_nat n))))
         (seqZ 23 148).
Proof. apply (bool_decide_unpack _). by vm_compute. Qed.

(** C10, as the code has it.  Both functions return 1 for every integer
    [n ≤ 1], zero and the negative integers included.  Ruby's returns the
    product 1·2·…·n for every [n ≥ 2]; JavaScript's returns a double
    that holds this product exactly up to [n = 22], and a double that is
    not this product from 23 to 170.  So the two agree on every integer
    [n ≤ 22] and on none from 23 to 170. *)
Theorem factorial_agree (n : Z) :
  MathUtils.factorial n = Some (product_or_one n)
  ∧ (n ≤ 1 →
     product_or_one n = 1
     ∧ MathUtils.factorial n = Some 1
     ∧ JS.factorial n = Some 1%float)
  ∧ (2 ≤ n → product_or_one n = product_upto (Z.to_nat n))
  ∧ (n ≤ 22 → Number.to_Z <$> JS.factorial n = Some (Some (product_or_one n)))
  ∧ (23 ≤ n ≤ 170 →
     Number.to_Z <$> JS.factorial n ≠ Some (Some (product_or_one n))).
Proof.
  split; [apply ruby_factorial_spec|].
  assert (n ≤ 1 → JS.factorial n = Some 1%float) as Hjs.
  { intros Hn. unfold JS.factorial.
    destruct (Z.to_nat n); simpl; by destruct (Z.leb_spec n 1); [|lia]. }
  split; [|split; [|split]].
  - intros Hn. rewrite ruby_factorial_spec. unfold product_or_one.
    destruct (Z.leb_spec n 1); [auto|lia].
  - intros Hn. unfold product_or_one. by destruct (Z.leb_spec n 1); [lia|].
  - intros Hn. unfold product_or_one. destruct (Z.leb_spec n 1) as [H1|H1].
    + by rewrite Hjs.
    + apply (proj1 (Forall_forall _ _) js_factorial_check).
      apply elem_of_seqZ. lia.
  - intros Hn. unfold product_or_one. destruct (Z.leb_spec n 1); [lia|].
    apply (proj1 (Forall_forall _ _) js_factorial_differs).
    apply elem_of_seqZ. lia.
Qed.

Lemma factorial_agree_witness :
  product_or_one 5 = 120
  ∧ MathUtils.factorial 5 = Some (product_or_one 5)
  ∧ Number.to_Z <$> JS.factorial 5 = Some (Some (product_or_one 5))
  ∧ JS.factorial (-3) = Some 1%float.
Proof.
  split; [reflexivity|].
  split; [apply (proj1 (factorial_agree 5))|].
  split; [apply (proj1 (proj2 (proj2 (proj2 (factorial_agree 5))))); lia|].
  apply (proj1 (proj2 (factorial_agree (-3)))). lia.
Defined.

(** C10, as stated, fails at [n = 23]: Ruby returns
    23! = 25852016738884976640000, and JavaScript the double
    25852016738884978212864. *)
Lemma factorial_disagree :
  MathUtils.factorial 23 = Some 25852016738884976640000
  ∧ product_or_one 23 = 25852016738884976640000
  ∧ Number.to_Z <$> JS.factorial 23 = Some (Some 25852016738884978212864).
Proof. split; [by vm_compute|]. split; by vm_compute. Qed.

(** *** Division *)

Lemma float_eqb_zero (b : Number.number) :
  PrimFloat.eqb b 0 = true ↔ b = 0%float ∨ b = (-0)%float.
Proof.
  split.
  - rewrite FloatAxioms.eqb_spec. intros Heq.
    change (Prim2SF 0) with (S754_zero false) in Heq.
    rewrite <- (SF2Prim_Prim2SF b).
    destruct (Prim2SF b) as [[|]|[|]| |[|] m e]; try discriminate.
    + right. reflexivity.
    + left. reflexivity.
  - intros [->| ->]; reflexivity.
Qed.

(** C9.  Each of the three helpers takes its error branch exactly when
    the divisor equals zero (as the floating-point comparison has it:
    for the two zeros, and not for NaN); the error branch carries no
    quotient (no data at all in TypeScript, the constant 0 in Go); and
    for every other divisor the success branch carries [a / b]. *)
Theorem divide_by_zero (a b : Number.number) :
  (PrimFloat.eqb b 0 = true ↔ b = 0%float ∨ b = (-0)%float)
  ∧ (TS.divide a b = TS.Failure "Division by zero"
     ↔ PrimFloat.eqb b 0 = true)
  ∧ (TS.divide a b = TS.Success (PrimFloat.div a b)
     ↔ PrimFloat.eqb b 0 = false)
  ∧ (Go.divide a b = (0%float, Some "division by zero"%string)
     ↔ PrimFloat.eqb b 0 = true)
  ∧ (Go.divide a b = (PrimFloat.div a b, None)
     ↔ PrimFloat.eqb b 0 = false)
  ∧ (Go.SafeDivide a b = (0%float, Some Go.ErrDivisionByZero)
     ↔ PrimFloat.eqb b 0 = true)
  ∧ (Go.SafeDivide a b = (PrimFloat.div a b, None)
     ↔ PrimFloat.eqb b 0 = false).
Proof.
  split; [apply float_eqb_zero|].
  unfold TS.divide, Go.divide, Go.SafeDivide.
  destruct (PrimFloat.eqb b 0); repeat split; intros; congruence.
Qed.

(** *** The generic stack of the second Go file *)

(** [Pop] undoes [Push]. *)
Lemma Pop_Push {T : Type} (zero : T) (s : GoShowcase.Stack T) (x : T) :
  GoShowcase.Pop zero (GoShowcase.Push s x) = (x, true, s).
Proof.
  destruct s as [l]. unfold GoShowcase.Pop, GoShowcase.Push. simpl.
  rewrite length_app. simpl.
  destruct (decide (length l + 1 = 0)%nat) as [|_]; [lia|].
  replace (length l + 1 - 1)%nat with (length l) by lia.
  rewrite lookup_app_r, Nat.sub_diag by lia. simpl.
  by rewrite take_app_length.
Qed.

Lemma pops_add {T : Type} (zero : T) (k m : nat) (s : GoShowcase.Stack T) :
  GoShowcase.pops zero (k + m) s
  = let '(l1, s1) := GoShowcase.pops zero k s in
    let '(l2, s2) := GoShowcase.pops zero m s1 in
    (l1 ++ l2, s2).
Proof.
  revert s. induction k as [|k IH]; intros s; cbn [Nat.add GoShowcase.pops].
  - by destruct (GoShowcase.pops zero m s).
  - destruct (GoShowcase.Pop zero s) as [[item ok] s1]. rewrite IH.
    destruct (GoShowcase.pops zero k s1) as [l1 s2].
    by destruct (GoShowcase.pops zero m s2).
Qed.

Lemma pops_pushes {T : Type} (zero : T) (s : GoShowcase.Stack T)
    (xs : list T) :
  GoShowcase.pops zero (length xs) (foldl GoShowcase.Push s xs)
  = (reverse ((λ x, (x, true)) <$> xs), s).
Proof.
  revert s. induction xs as [|x xs IH] using rev_ind; intros s; [done|].
  rewrite length_app, Nat.add_comm, foldl_snoc. cbn [length Nat.add].
  cbn [GoShowcase.pops]. rewrite Pop_Push, IH.
  by rewrite fmap_app, reverse_app.
Qed.

(** X1.  Last in, first out: after pushing the items [xs] one by one, as
    many calls of [Pop] return them in reverse order, each with [true],
    and leave the stack as it was; one more [Pop] on a stack that was
    empty before returns the zero value with [false] and leaves it
    empty. *)
Theorem pops_after_pushes {T : Type} (zero : T) (s : GoShowcase.Stack T)
    (xs : list T) :
  GoShowcase.pops zero (length xs) (foldl GoShowcase.Push s xs)
  = (reverse ((λ x, (x, true)) <$> xs), s)
  ∧ GoShowcase.pops zero (length xs + 1)
      (foldl GoShowcase.Push (GoShowcase.MkStack []) xs)
    = (reverse ((λ x, (x, true)) <$> xs) ++ [(zero, false)],
       GoShowcase.MkStack []).
Proof.
  split; [apply pops_pushes|].
  by rewrite pops_add, pops_pushes.
Qed.

(** *** Sums, counters and number lists of the second Go file *)

Lemma wrap_add_l a b : GoInt.add (GoInt.wrap a) b = GoInt.wrap (a + b).
Proof.
  unfold GoInt.add, GoInt.wrap. f_equal.
  replace ((a + 2 ^ 63) mod 2 ^ 64 - 2 ^ 63 + b + 2 ^ 63)
    with ((a + 2 ^ 63) mod 2 ^ 64 + b) by lia.
  rewrite Zplus_mod_idemp_l. f_equal. lia.
Qed.

Lemma foldl_add_wrap acc numbers :
  foldl GoInt.add (GoInt.wrap acc) numbers
  = GoInt.wrap (acc + foldr Z.add 0 numbers).
Proof.
  revert acc. induction numbers as [|n numbers IH]; intros acc; simpl.
  - by rewrite Z.add_0_r.
  - rewrite wrap_add_l, IH. f_equal. lia.
Qed.

Lemma foldr_add_app (xs ys : list Z) :
  foldr Z.add 0 (xs ++ ys) = foldr Z.add 0 xs + foldr Z.add 0 ys.
Proof. induction xs as [|x xs IH]; simpl; lia. Qed.

(** X2.  On [int], [Sum] is the exact sum wrapped to 64 bits once:
    overflow on the way does not matter, so whenever the exact sum fits
    an [int], [Sum] returns it; and the sum of two slices joined is the
    ([int]) sum of their sums. *)
Theorem Sum_int (numbers more : list Z) :
  GoShowcase.Sum GoInt.add 0 numbers = GoInt.wrap (foldr Z.add 0 numbers)
  ∧ (GoInt.in_range (foldr Z.add 0 numbers) →
     GoShowcase.Sum GoInt.add 0 numbers = foldr Z.add 0 numbers)
  ∧ GoShowcase.Sum GoInt.add 0 (numbers ++ more)
    = GoInt.add (GoShowcase.Sum GoInt.add 0 numbers)
                (GoShowcase.Sum GoInt.add 0 more).
Proof.
  assert (∀ l, GoShowcase.Sum GoInt.add 0 l = GoInt.wrap (foldr Z.add 0 l))
    as Hsum.
  { intros l. unfold GoShowcase.Sum.
    change 0 with (GoInt.wrap 0) at 1. by rewrite foldl_add_wrap. }
  split; [apply Hsum|]. split.
  - intros Hr. by rewrite Hsum, wrap_small.
  - by rewrite !Hsum, foldr_add_app, wrap_add.
Qed.

Lemma Sum_int_witness :
  GoShowcase.Sum GoInt.add 0 [GoInt.max_int; 1; -1] = GoInt.max_int
  ∧ GoInt.add GoInt.max_int 1 = GoInt.min_int.
Proof.
  split; [|reflexivity].
  transitivity (foldr Z.add 0 [GoInt.max_int; 1; -1]); [|reflexivity].
  apply (proj1 (proj2 (Sum_int [GoInt.max_int; 1; -1] []))).
  unfold GoInt.in_range, GoInt.min_int, GoInt.max_int. simpl. lia.
Defined.

Lemma counter_calls_from k c :
  GoShowcase.counter_calls k (GoInt.wrap c)
  = (λ i : nat, GoInt.wrap (c + Z.of_nat i)) <$> seq 1 k.
Proof.
  revert c. induction k as [|k IH]; intros c; [done|].
  cbn [GoShowcase.counter_calls GoShowcase.counter].
  rewrite wrap_add_l, IH. csimpl. f_equal.
  rewrite <- (fmap_S_seq 1 k), <- list_fmap_compose.
  apply list_fmap_ext. intros _ i _. simpl. f_equal. lia.
Qed.

(** X3.  A counter made by [createCounter] counts its own calls:
    the calls return 1, 2, 3, ... in turn, as long as the count fits an
    [int] (beyond that it wraps around). *)
Theorem createCounter_counts (k : nat) :
  GoShowcase.counter_calls k GoShowcase.createCounter
  = (λ i : nat, GoInt.wrap (Z.of_nat i)) <$> seq 1 k
  ∧ (Z.of_nat k ≤ GoInt.max_int →
     GoShowcase.counter_calls k GoShowcase.createCounter
     = Z.of_nat <$> seq 1 k).
Proof.
  assert (GoShowcase.counter_calls k GoShowcase.createCounter
          = (λ i : nat, GoInt.wrap (Z.of_nat i)) <$> seq 1 k) as Hcalls.
  { unfold GoShowcase.createCounter. change 0 with (GoInt.wrap 0).
    rewrite counter_calls_from. apply list_fmap_ext. intros _ i _. done. }
  split; [done|]. intros Hk. rewrite Hcalls.
  apply list_fmap_ext. intros _ i [_ Hi]%list_elem_of_lookup_2%elem_of_seq.
  apply wrap_small. unfold GoInt.in_range, GoInt.min_int in *.
  unfold GoInt.max_int in *. lia.
Qed.

Lemma createCounter_counts_witness :
  GoShowcase.counter_calls 3 GoShowcase.createCounter = [1; 2; 3].
Proof.
  apply (proj2 (createCounter_counts 3)). unfold GoInt.max_int. simpl. lia.
Defined.

Lemma assign_each_fmap {A B : Type} (g : A → B) (z : B) (numbers : list A)
    (done_ : list B) :
  GoShowcase.assign_each g (length done_) numbers
    (done_ ++ replicate (length numbers) z)
  = done_ ++ (g <$> numbers).
Proof.
  revert done_. induction numbers as [|n numbers IH]; intros done_; [done|].
  cbn [GoShowcase.assign_each length replicate].
  rewrite insert_app_r_alt, Nat.sub_diag by lia. simpl.
  rewrite (cons_middle (g n)), app_assoc.
  replace (S (length done_)) with (length (done_ ++ [g n]))
    by (rewrite length_app; simpl; lia).
  rewrite IH. by rewrite <- app_assoc.
Qed.

Lemma rem2_even n : (Z.rem n 2 =? 0) = Z.even n.
Proof.
  apply eq_true_iff_eq. rewrite Z.eqb_eq, Z.rem_divide, Z.even_spec by done.
  split; intros [m ->]; exists m; lia.
Qed.

Lemma evens_loop (acc numbers : list Z) :
  foldl (λ evens n, if Z.rem n 2 =? 0 then evens ++ [n] else evens)
        acc numbers
  = acc ++ filter (λ n, Z.even n = true) numbers.
Proof.
  revert acc. induction numbers as [|n numbers IH]; intros acc; simpl.
  - by rewrite app_nil_r.
  - rewrite IH, filter_cons, rem2_even.
    destruct (Z.even n).
    + destruct (decide (true = true)); [|done]. by rewrite <- app_assoc.
    + by destruct (decide (false = true)).
Qed.

(** X4.  [processNumbers] returns a map with exactly the three keys
    "evens", "squared" and "doubled": under "evens" the even numbers of
    the input, in their order and as often as they occur (the negative
    ones included), under "squared" and "doubled" the square and the
    double of every number, position by position, on [int]. *)
Theorem processNumbers_spec (numbers : list Z) :
  GoShowcase.processNumbers numbers !! "evens"%string
  = Some (filter (λ n, Z.even n = true) numbers)
  ∧ GoShowcase.processNumbers numbers !! "squared"%string
    = Some ((λ n, GoInt.mul n n) <$> numbers)
  ∧ GoShowcase.processNumbers numbers !! "doubled"%string
    = Some (double <$> numbers)
  ∧ dom (GoShowcase.processNumbers numbers)
    = ({["evens"%string; "squared"%string; "doubled"%string]}
         : gset string).
Proof.
  unfold GoShowcase.processNumbers.
  rewrite evens_loop.
  rewrite !(assign_each_fmap _ 0 numbers []). simpl.
  split; [by simplify_map_eq|]. split; [by simplify_map_eq|].
  split; [by simplify_map_eq|].
  rewrite !dom_insert_L, dom_empty_L. set_solver.
Qed.

(** *** The lazy Fibonacci enumerator of the first Ruby file *)

Lemma yields_fib (k i : nat) :
  RubyShowcase.yields k (fib i) (fib (S i)) = fib <$> seq i k.
Proof.
  revert i. induction k as [|k IH]; intros i; [done|].
  cbn [RubyShowcase.yields]. rewrite Z.add_comm, <- fib_SS, IH. done.
Qed.

(** X5.  Taking the first [n] values of the lazy enumerator gives,
    for every [n ≥ 0], the same list as [MathUtils.fibonacci(n)]: the
    first [n] Fibonacci numbers.  For a negative [n] the two differ:
    [take] raises, [MathUtils.fibonacci] returns the empty list. *)
Theorem fibonacci_take_spec (n : Z) :
  (0 ≤ n →
   RubyShowcase.fibonacci_take n = Some (first_fibonacci n)
   ∧ RubyShowcase.fibonacci_take n = MathUtils.fibonacci n)
  ∧ (n < 0 →
     RubyShowcase.fibonacci_take n = None
     ∧ MathUtils.fibonacci n = Some []).
Proof.
  unfold RubyShowcase.fibonacci_take. split; intros Hn.
  - destruct (Z.ltb_spec n 0); [lia|].
    rewrite ruby_fibonacci_spec, first_fibonacci_seq.
    by rewrite (yields_fib _ 0).
  - destruct (Z.ltb_spec n 0); [|lia]. split; [done|].
    unfold MathUtils.fibonacci. by destruct (Z.leb_spec n 0); [|lia].
Qed.

Lemma fibonacci_take_spec_witness :
  RubyShowcase.fibonacci_take 10 = Some [0; 1; 1; 2; 3; 5; 8; 13; 21; 34]
  ∧ RubyShowcase.fibonacci_take (-1) = None.
Proof.
  split.
  - transitivity (Some (first_fibonacci 10)); [|reflexivity].
    apply (proj1 (fibonacci_take_spec 10)). lia.
  - apply (proj2 (fibonacci_take_spec (-1))). lia.
Defined.

(** *** More on the worker pool: order and bounds *)

Local Close Scope Z_scope.

Lemma step_fifo t a s s' :
  step t a s = Ok s' →
  invoked s' ++ buf (jobs s') ++ pending (main_pc s')
  = invoked s ++ buf (jobs s) ++ pending (main_pc s).
Proof.
  destruct a as [|i|]; simpl; intros Hstep.
  - apply main_ok in Hstep
      as [(j & rest & c & Hpc & Hs & ->)
         |[(Hpc & Hc & ->)
          |[(Hpc & ->)
           |[(r & c & Hpc & Hr & ->)|(Hpc & Hb & Hc & ->)]]]];
      simpl; rewrite Hpc; simpl; try done.
    apply chan_send_ok in Hs as (_ & _ & ->). simpl.
    by rewrite <- !app_assoc.
  - apply worker_cases in Hstep
      as [(j & c & v & Hw & Hr & _ & ->)
         |[(m & _ & _ & _ & _ & ->)|(v & c & _ & _ & ->)]];
      simpl; try done.
    apply chan_recv_some in Hr as (-> & _ & _).
    by rewrite <- !app_assoc.
  - by apply closer_ok in Hstep as [(_ & _ & ->)|(_ & _ & ->)].
Qed.

Lemma run_fifo t sched s s' :
  run t sched s = Ok s' →
  invoked s' ++ buf (jobs s') ++ pending (main_pc s')
  = invoked s ++ buf (jobs s) ++ pending (main_pc s).
Proof.
  revert s. induction sched as [|a sched IH]; intros s; simpl.
  - by intros [= <-].
  - destruct (step t a s) as [s1| |] eqn:Hstep; try discriminate.
    intros Hrun. rewrite (IH _ Hrun). by eapply step_fifo.
Qed.

(** X6.  Jobs leave the queue first in, first out: from the start of
    any pool with buffered channels, for any transform and under every
    interleaving, the jobs the workers have taken from the queue, in the
    order they were taken, followed by the jobs waiting in the queue,
    followed by the jobs [main] has still to send, are the submitted
    jobs in their order; so the jobs are taken in submission order, none
    is skipped and none is taken twice.  (Which of two workers is first
    to compute or to emit is not fixed by this.) *)
Theorem jobs_fifo (t : Z → call) (n qcap rcap : Z) (js : list Z)
    (s0 : pool) (sched : list actor) (s : pool) :
  (1 ≤ qcap)%Z → (1 ≤ rcap)%Z →
  new_pool n qcap rcap js = Ok s0 →
  run t sched s0 = Ok s →
  invoked s ++ buf (jobs s) ++ pending (main_pc s) = js
  ∧ invoked s `prefix_of` js.
Proof.
  intros _ _ (_ & _ & ->)%new_pool_ok Hrun.
  apply run_fifo in Hrun. simpl in Hrun.
  split; [done|]. rewrite <- Hrun. by apply prefix_app_r.
Qed.

Lemma jobs_fifo_witness :
  ∃ s0 s,
    main_pool = Ok s0
    ∧ run (total double) (replicate 5 Main ++ [Worker 2; Worker 0]) s0
      = Ok s
    ∧ invoked s = [1; 2]%Z
    ∧ invoked s `prefix_of` [1; 2; 3; 4; 5]%Z.
Proof.
  eexists _, _.
  split; [reflexivity|]. split; [vm_compute; reflexivity|].
  split; [reflexivity|].
  refine (proj2 (jobs_fifo (total double) 3 5 5 [1; 2; 3; 4; 5]%Z _
                   (replicate 5 Main ++ [Worker 2; Worker 0]) _ _ _ _ _));
    [lia|lia|reflexivity|vm_compute; reflexivity].
Defined.

Lemma step_bounds t a s s' :
  step t a s = Ok s' →
  (Z.of_nat (length (buf (jobs s))) ≤ cap (jobs s) `max` 0)%Z
  ∧ (Z.of_nat (length (buf (results s))) ≤ cap (results s) `max` 0)%Z →
  (Z.of_nat (length (buf (jobs s'))) ≤ cap (jobs s') `max` 0)%Z
  ∧ (Z.of_nat (length (buf (results s'))) ≤ cap (results s') `max` 0)%Z.
Proof.
  destruct a as [|i|]; simpl; intros Hstep [Hj Hr].
  - apply main_ok in Hstep
      as [(j & rest & c & Hpc & Hs & ->)
         |[(Hpc & Hc & ->)
          |[(Hpc & ->)
           |[(r & c & Hpc & Hrecv & ->)|(Hpc & Hb & Hc & ->)]]]];
      simpl; try done.
    + apply chan_send_ok in Hs as (_ & Hlt & ->). simpl.
      rewrite length_app. simpl. lia.
    + apply chan_recv_some in Hrecv as (Hb & -> & _).
      rewrite Hb in Hr. simpl in Hr. lia.
  - apply worker_cases in Hstep
      as [(j & c & v & Hw & Hrecv & _ & ->)
         |[(m & _ & _ & _ & _ & ->)|(v & c & _ & Hs & ->)]];
      simpl; try done.
    + apply chan_recv_some in Hrecv as (Hb & -> & _).
      rewrite Hb in Hj. simpl in Hj. lia.
    + apply chan_send_ok in Hs as (_ & Hlt & ->). simpl.
      rewrite length_app. simpl. lia.
  - by apply closer_ok in Hstep as [(_ & _ & ->)|(_ & _ & ->)].
Qed.

Lemma run_bounds t sched s s' :
  run t sched s = Ok s' →
  (Z.of_nat (length (buf (jobs s))) ≤ cap (jobs s) `max` 0)%Z
  ∧ (Z.of_nat (length (buf (results s))) ≤ cap (results s) `max` 0)%Z →
  (Z.of_nat (length (buf (jobs s'))) ≤ cap (jobs s') `max` 0)%Z
  ∧ (Z.of_nat (length (buf (results s'))) ≤ cap (results s') `max` 0)%Z.
Proof.
  revert s. induction sched as [|a sched IH]; intros s; simpl.
  - by intros [= <-].
  - destruct (step t a s) as [s1| |] eqn:Hstep; try discriminate.
    eauto using step_bounds.
Qed.

(** X7.  Backpressure: from the start of any pool, for any transform
    and under every interleaving, neither channel ever holds more values
    than the capacity it was made with. *)
Theorem buffers_bounded (t : Z → call) (n qcap rcap : Z) (js : list Z)
    (s0 : pool) (sched : list actor) (s : pool) :
  new_pool n qcap rcap js = Ok s0 →
  run t sched s0 = Ok s →
  (Z.of_nat (length (buf (jobs s))) ≤ qcap)%Z
  ∧ (Z.of_nat (length (buf (results s))) ≤ rcap)%Z.
Proof.
  intros Hstart Hrun.
  destruct (run_caps _ _ _ _ Hrun) as [Hq Hr].
  destruct (run_bounds _ _ _ _ Hrun) as [Hbj Hbr].
  { apply new_pool_ok in Hstart as (Hq0 & Hr0 & ->). simpl. lia. }
  apply new_pool_ok in Hstart as (Hq0 & Hr0 & ->). simpl in Hq, Hr.
  rewrite Hq in Hbj. rewrite Hr in Hbr. lia.
Qed.

Lemma buffers_bounded_witness :
  ∃ s0 s,
    new_pool 3 5 5 (seqZ 1 14) = Ok s0
    ∧ run (total double) fill_both s0 = Ok s
    ∧ length (buf (jobs s)) = 5 ∧ length (buf (results s)) = 5
    ∧ (Z.of_nat (length (buf (jobs s))) ≤ 5)%Z
    ∧ (Z.of_nat (length (buf (results s))) ≤ 5)%Z.
Proof.
  eexists _, _.
  split; [reflexivity|]. split; [vm_compute; reflexivity|].
  split; [reflexivity|]. split; [reflexivity|].
  refine (buffers_bounded (total double) 3 5 5 (seqZ 1 14) _ fill_both
            _ _ _);
    [reflexivity|vm_compute; reflexivity].
Defined.

Lemma step_in_order f a w s s' :
  workers s = [w] →
  step (total f) a s = Ok s' →
  (∃ w', workers s' = [w'])
  ∧ workerResults s' ++ buf (results s') ++ in_flight (workers s')
      ++ (f <$> (buf (jobs s') ++ pending (main_pc s')))
    = workerResults s ++ buf (results s) ++ in_flight (workers s)
        ++ (f <$> (buf (jobs s) ++ pending (main_pc s))).
Proof.
  intros Hws. destruct a as [|i|]; simpl; intros Hstep.
  - split; [by apply main_ok in Hstep
      as [(j & rest & c & Hpc & Hs & ->)
         |[(Hpc & Hc & ->)
          |[(Hpc & ->)
           |[(r & c & Hpc & Hr & ->)|(Hpc & Hb & Hc & ->)]]]]; eauto|].
    apply main_ok in Hstep
      as [(j & rest & c & Hpc & Hs & ->)
         |[(Hpc & Hc & ->)
          |[(Hpc & ->)
           |[(r & c & Hpc & Hr & ->)|(Hpc & Hb & Hc & ->)]]]];
      simpl; rewrite Hpc; simpl; try done.
    + apply chan_send_ok in Hs as (_ & _ & ->). simpl.
      by rewrite <- !app_assoc.
    + apply chan_recv_some in Hr as (-> & _ & _).
      by rewrite <- !app_assoc.
  - apply worker_ok in Hstep
      as [(j & c & Hw & Hr & ->)
         |[(m & Hw & _ & _ & _ & ->)|(v & c & Hw & Hs & ->)]];
      rewrite Hws in Hw; destruct i as [|i]; try discriminate;
      simpl in Hw; injection Hw as ->; simpl; rewrite Hws; simpl;
      (split; [eauto|]).
    + apply chan_recv_some in Hr as (-> & _ & _). done.
    + done.
    + apply chan_send_ok in Hs as (_ & _ & ->). simpl.
      by rewrite <- !app_assoc.
  - split; [by apply closer_ok in Hstep as [(_ & _ & ->)|(_ & _ & ->)];
            eauto|].
    by apply closer_ok in Hstep as [(_ & _ & ->)|(_ & _ & ->)].
Qed.

Lemma run_in_order f sched w s s' :
  workers s = [w] →
  run (total f) sched s = Ok s' →
  workerResults s' ++ buf (results s') ++ in_flight (workers s')
    ++ (f <$> (buf (jobs s') ++ pending (main_pc s')))
  = workerResults s ++ buf (results s) ++ in_flight (workers s)
      ++ (f <$> (buf (jobs s) ++ pending (main_pc s))).
Proof.
  revert w s. induction sched as [|a sched IH]; intros w s Hws; simpl.
  - by intros [= <-].
  - destruct (step (total f) a s) as [s1| |] eqn:Hstep; try discriminate.
    intros Hrun.
    destruct (step_in_order _ _ _ _ _ Hws Hstep) as [[w' Hws'] Heq].
    rewrite (IH _ _ Hws' Hrun). exact Heq.
Qed.

(** X8.  With a single worker the results keep the order of the
    jobs: from the start of a pool with one worker, under every
    interleaving, what is collected, what waits in [results], what the
    worker holds and the values of the jobs still to come are, in this
    order, the values of the submitted jobs; so when [main] has read the
    result stream to its end, [workerResults] is exactly the list of
    those values. *)
Theorem one_worker_in_order (f : Z → Z) (qcap rcap : Z) (js : list Z)
    (s0 : pool) (sched : list actor) (s : pool) :
  new_pool 1 qcap rcap js = Ok s0 →
  run (total f) sched s0 = Ok s →
  workerResults s ++ buf (results s) ++ in_flight (workers s)
    ++ (f <$> (buf (jobs s) ++ pending (main_pc s))) = f <$> js
  ∧ (main_pc s = MExit → workerResults s = f <$> js).
Proof.
  intros Hstart Hrun.
  assert (workerResults s ++ buf (results s) ++ in_flight (workers s)
            ++ (f <$> (buf (jobs s) ++ pending (main_pc s))) = f <$> js)
    as Heq.
  { pose proof Hstart as (_ & _ & ->)%new_pool_ok.
    eapply (run_in_order f _ WRange) in Hrun; [|reflexivity].
    by rewrite Hrun. }
  split; [done|]. intros Hpc.
  destruct (reach_exit f _ _ _ _ _ Hstart _ _ Hrun Hpc) as (_ & Hb & Hall).
  pose proof (reach_inv f _ _ _ _ _ Hstart _ _ Hrun) as Hinv.
  pose proof (inv_workers _ _ _ _ Hinv) as Hlen.
  assert (WReturned ∈ workers s) as Hin.
  { destruct (workers s) as [|w ws]; [simpl in Hlen; lia|].
    apply Forall_cons in Hall as [-> _]. by left. }
  destruct (inv_returned _ _ _ _ Hinv Hin) as [_ Hbj].
  rewrite Hb, Hbj, Hpc, (all_returned_in_flight _ Hall) in Heq.
  simpl in Heq. by rewrite app_nil_r in Heq.
Qed.

Lemma one_worker_in_order_witness :
  ∃ s0 s,
    new_pool 1 5 5 [1; 2; 3; 4; 5]%Z = Ok s0
    ∧ run (total double)
        (submit_all ++ mjoin (replicate 5 [Worker 0; Worker 0])
         ++ [Worker 0; Closer; Closer] ++ replicate 6 Main) s0 = Ok s
    ∧ main_pc s = MExit
    ∧ workerResults s = double <$> [1; 2; 3; 4; 5]%Z.
Proof.
  eexists _, _.
  split; [reflexivity|]. split; [vm_compute; reflexivity|].
  split; [reflexivity|].
  refine (proj2 (one_worker_in_order double 5 5 [1; 2; 3; 4; 5]%Z _
                   (submit_all ++ mjoin (replicate 5 [Worker 0; Worker 0])
                    ++ [Worker 0; Closer; Closer] ++ replicate 6 Main)
                   _ _ _) _);
    [reflexivity|vm_compute; reflexivity|reflexivity].
Defined.

(** *** The query builder *)

Lemma chain_snoc calls c :
  QueryBuilder.chain (calls ++ [c])
  = QueryBuilder.send (QueryBuilder.chain calls) c.
Proof. unfold QueryBuilder.chain. by rewrite foldl_snoc. Qed.

Lemma chain_fields calls :
  QueryBuilder.chain calls
  = QueryBuilder.Make (QueryBuilder.wheres calls)
      (last (QueryBuilder.order_bys calls))
      (last (QueryBuilder.limits calls)).
Proof.
  induction calls as [|c calls IH] using rev_ind; [done|].
  rewrite chain_snoc, IH.
  unfold QueryBuilder.wheres, QueryBuilder.order_bys, QueryBuilder.limits.
  rewrite !omap_app.
  destruct c; csimpl; rewrite ?app_nil_r, ?last_snoc; done.
Qed.

(** X9.  Whatever the order of the calls in a chain, the builder
    ends up with the conditions of all [where] calls in call order, the
    field of the last [order_by] and the number of the last [limit]
    (none if there was no such call); so a chain gives the same query as
    its [where] calls followed by its last [order_by] and its last
    [limit]. *)
Theorem chain_normal_form (calls : list QueryBuilder.call) :
  QueryBuilder.at_conditions (QueryBuilder.chain calls)
  = QueryBuilder.wheres calls
  ∧ QueryBuilder.at_order (QueryBuilder.chain calls)
    = last (QueryBuilder.order_bys calls)
  ∧ QueryBuilder.at_limit (QueryBuilder.chain calls)
    = last (QueryBuilder.limits calls)
  ∧ QueryBuilder.to_query (QueryBuilder.chain calls)
    = QueryBuilder.to_query
        (QueryBuilder.chain
           ((QueryBuilder.Where <$> QueryBuilder.wheres calls)
            ++ option_list
                 (QueryBuilder.OrderBy <$> last (QueryBuilder.order_bys calls))
            ++ option_list
                 (QueryBuilder.Limit <$> last (QueryBuilder.limits calls)))).
Proof.
  rewrite !chain_fields. simpl.
  split; [done|]. split; [done|]. split; [done|].
  f_equal. f_equal.
  - unfold QueryBuilder.wheres. rewrite !omap_app.
    destruct (last (QueryBuilder.order_bys calls)),
      (last (QueryBuilder.limits calls)); csimpl; rewrite ?app_nil_r;
      induction (omap _ calls) as [|x l IH]; csimpl; congruence.
  - unfold QueryBuilder.order_bys. rewrite !omap_app.
    assert (omap (λ c, match c with
                       | QueryBuilder.OrderBy x => Some x
                       | _ => None
                       end)
              (QueryBuilder.Where <$> QueryBuilder.wheres calls) = [])
      as -> by (induction (QueryBuilder.wheres calls); csimpl; auto).
    destruct (last (omap _ calls)), (last (QueryBuilder.limits calls));
      done.
  - unfold QueryBuilder.limits. rewrite !omap_app.
    assert (omap (λ c, match c with
                       | QueryBuilder.Limit x => Some x
                       | _ => None
                       end)
              (QueryBuilder.Where <$> QueryBuilder.wheres calls) = [])
      as -> by (induction (QueryBuilder.wheres calls); csimpl; auto).
    destruct (last (QueryBuilder.order_bys calls)), (last (omap _ calls));
      done.
Qed.

(** *** The container *)

Section ContainerFacts.

Context {K : Type} `{EqDecision K} {T : Type} (id : T → K).

Lemma map_get_set (k : K) (v : T) (m : list (K * T)) :
  Container.map_get k (Container.map_set k v m) = Some v.
Proof.
  induction m as [|[k' v'] m IH]; simpl.
  - by destruct (decide (k = k)).
  - destruct (decide (k' = k)) as [->|Hne]; simpl.
    + by destruct (decide (k = k)).
    + by destruct (decide (k' = k)).
Qed.

Lemma map_get_set_ne (k k' : K) (v : T) (m : list (K * T)) :
  k ≠ k' →
  Container.map_get k' (Container.map_set k v m) = Container.map_get k' m.
Proof.
  intros Hne. induction m as [|[k0 v0] m IH]; simpl.
  - by destruct (decide (k = k')).
  - destruct (decide (k0 = k)) as [->|Hne0]; simpl.
    + by destruct (decide (k = k')).
    + destruct (decide (k0 = k')); [done|]. exact IH.
Qed.

Lemma map_set_keys (k : K) (v : T) (m : list (K * T)) :
  (Container.map_set k v m).*1
  = if decide (k ∈ m.*1) then m.*1 else m.*1 ++ [k].
Proof.
  induction m as [|[k0 v0] m IH]; csimpl.
  - destruct (decide (k ∈ [])) as [Hin|_]; [|done].
    by apply elem_of_nil in Hin.
  - destruct (decide (k0 = k)) as [->|Hne]; csimpl.
    + destruct (decide (k ∈ k :: m.*1)) as [_|Hn]; [done|].
      destruct Hn. apply elem_of_cons. by left.
    + rewrite IH.
      destruct (decide (k ∈ m.*1)) as [Hin|Hnin];
        destruct (decide (k ∈ k0 :: m.*1)) as [Hin'|Hnin']; try done.
      * destruct Hnin'. apply elem_of_cons. by right.
      * apply elem_of_cons in Hin' as [->|?]; done.
Qed.

Lemma map_set_values (k : K) (v : T) (m : list (K * T)) x :
  x ∈ (Container.map_set k v m) → x = (k, v) ∨ x ∈ m.
Proof.
  induction m as [|[k0 v0] m IH]; simpl.
  - intros ->%list_elem_of_singleton. by left.
  - destruct (decide (k0 = k)) as [->|Hne].
    + intros [->|Hin]%elem_of_cons; [by left|].
      right. apply elem_of_cons. by right.
    + intros [->|Hin]%elem_of_cons; [right; apply elem_of_cons; by left|].
      destruct (IH Hin) as [->|?]; [by left|].
      right. apply elem_of_cons. by right.
Qed.

Lemma map_get_elem (k : K) (v : T) (m : list (K * T)) :
  NoDup m.*1 → (k, v) ∈ m → Container.map_get k m = Some v.
Proof.
  induction m as [|[k0 v0] m IH]; simpl.
  - by intros _ ?%elem_of_nil.
  - intros [Hnin Hnd]%NoDup_cons [[= -> ->]|Hin]%elem_of_cons.
    + by destruct (decide (k0 = k0)).
    + destruct (decide (k0 = k)) as [->|Hne]; [|auto].
      destruct Hnin. apply list_elem_of_fmap. by exists (k, v).
Qed.

(** The items added one after the other to a new container. *)
Lemma adds_snoc (xs : list T) (x : T) :
  foldl (λ c item, Container.add id item c) Container.empty (xs ++ [x])
  = Container.add id x
      (foldl (λ c item, Container.add id item c) Container.empty xs).
Proof. by rewrite foldl_snoc. Qed.

Lemma adds_wf (xs : list T) :
  let c := foldl (λ c item, Container.add id item c) Container.empty xs in
  NoDup c.*1 ∧ ∀ k v, (k, v) ∈ c → k = id v.
Proof.
  induction xs as [|x xs [IHnd IHid]] using rev_ind; simpl.
  - split; [constructor|]. by intros k v ?%elem_of_nil.
  - rewrite adds_snoc. unfold Container.add at 1 3. split.
    + rewrite map_set_keys.
      destruct (decide (id x ∈ _)) as [Hin|Hnin]; [done|].
      apply NoDup_app. split; [done|].
      split; [|apply NoDup_singleton].
      by intros k Hk ->%list_elem_of_singleton.
    + intros k v [[= -> ->]|Hin]%map_set_values; auto.
Qed.

End ContainerFacts.

(** X10.  [get] after [add]: right after [add(item)], [get] of the
    item's id returns that very item, whatever the container held under
    this id before, and [get] of any other id returns what it returned
    before. *)
Theorem get_add {K : Type} `{EqDecision K} {T : Type} (id : T → K)
    (item : T) (i : K) (c : list (K * T)) :
  Container.get (id item) (Container.add id item c) = Some item
  ∧ (i ≠ id item →
     Container.get i (Container.add id item c) = Container.get i c).
Proof.
  unfold Container.get, Container.add. split.
  - apply map_get_set.
  - intros Hne. by apply map_get_set_ne.
Qed.

Lemma get_add_witness :
  Container.get 2%Z
    (Container.add fst (1%Z, "first"%string) Container.empty) = None
  ∧ Container.get 1%Z
      (Container.add fst (1%Z, "second"%string)
         (Container.add fst (1%Z, "first"%string) Container.empty))
    = Some (1%Z, "second"%string).
Proof.
  split.
  - transitivity (Container.get 2%Z (Container.empty (T := Z * string)));
      [|reflexivity].
    apply (proj2 (get_add fst (1%Z, "first"%string) 2%Z Container.empty)).
    simpl. lia.
  - apply (proj1 (get_add fst (1%Z, "second"%string) 1%Z _)).
Defined.

(** X11.  For a container filled by [add] from a new one: [get(i)]
    returns the item added last under the id [i], and nothing if none
    was; [getAll] lists no two items with the same id, no more items
    than were added, and each listed item is the one [get] returns for
    its id. *)
Theorem getAll_adds {K : Type} `{EqDecision K} {T : Type} (id : T → K)
    (xs : list T) :
  let c := foldl (λ c item, Container.add id item c) Container.empty xs in
  (∀ i, Container.get i c = last (filter (λ x, id x = i) xs))
  ∧ NoDup (id <$> Container.getAll c)
  ∧ (∀ x, x ∈ Container.getAll c → Container.get (id x) c = Some x)
  ∧ (∀ x, x ∈ Container.getAll c → x ∈ xs)
  ∧ (length (Container.getAll c) ≤ length xs)%nat.
Proof.
  simpl. split; [|split; [|split; [|split]]].
  - intros i. induction xs as [|x xs IH] using rev_ind; [done|].
    rewrite adds_snoc, filter_app, filter_cons, filter_nil.
    destruct (decide (id x = i)) as [<-|Hne].
    + rewrite last_snoc. apply map_get_set.
    + rewrite app_nil_r, <- IH. by apply map_get_set_ne.
  - destruct (adds_wf id xs) as [Hnd Hid]. unfold Container.getAll.
    rewrite <- list_fmap_compose.
    erewrite list_fmap_ext; [exact Hnd|].
    intros _ [k v] Hin%list_elem_of_lookup_2. simpl.
    symmetry. by apply Hid.
  - destruct (adds_wf id xs) as [Hnd Hid].
    intros x ([k v] & -> & Hin)%list_elem_of_fmap. simpl.
    rewrite <- (Hid _ _ Hin). by apply map_get_elem.
  - induction xs as [|x xs IH] using rev_ind.
    + by intros x ?%elem_of_nil.
    + rewrite adds_snoc. intros y ([k v] & -> & Hin)%list_elem_of_fmap.
      apply map_set_values in Hin as [[= -> ->]|Hin]; simpl.
      * apply elem_of_app. right. by apply list_elem_of_singleton.
      * apply elem_of_app. left. apply IH.
        apply list_elem_of_fmap. by exists (k, v).
  - induction xs as [|x xs IH] using rev_ind; [done|].
    rewrite adds_snoc. unfold Container.getAll in *.
    rewrite length_fmap in *. rewrite <- (length_fmap fst).
    unfold Container.add at 1. rewrite map_set_keys.
    destruct (decide (id x ∈ _)); rewrite !length_app, ?length_fmap;
      simpl; lia.
Qed.

(** *** The Fibonacci goroutine and its reader *)

Section GeneratorFacts.

Import Generator.
Local Open Scope Z_scope.

Lemma wrap_succ i n : GoInt.in_range n → 0 ≤ i < n → GoInt.add i 1 = i + 1.
Proof.
  intros Hn Hi. unfold GoInt.add. apply wrap_small.
  unfold GoInt.in_range, GoInt.min_int, GoInt.max_int in *. lia.
Qed.

Lemma generator_start_inv n size s0 : start size = Ok s0 → inv n size s0.
Proof.
  unfold start. destruct (make_chan size) as [c| |] eqn:Hc; try done.
  apply make_chan_ok in Hc as [? ->].
  intros [= <-]. unfold inv. simpl. repeat split; try done; lia.
Qed.

Lemma generator_step_inv n size a s s' :
  GoInt.in_range n → inv n size s → step n a s = Ok s' → inv n size s'.
Proof.
  intros Hn (Hcap & Hlen & Hp) Hstep. destruct a; simpl in Hstep.
  - unfold main_step in Hstep. destruct (reader s) eqn:Hr; [|done].
    destruct (chan_recv (ch s)) as [[[v|] c]| |] eqn:Hrecv; try done;
      injection Hstep as <-.
    + apply chan_recv_some in Hrecv as (Hb & Hc & Hcl).
      unfold inv; simpl. rewrite Hc, Hcl.
      split; [done|]. split; [rewrite Hb in Hlen; simpl in Hlen; lia|].
      rewrite <- app_assoc. simpl. rewrite <- Hb.
      destruct (producer s) as [i a b|]; [done|].
      destruct Hp as (? & ? & ?). done.
    + apply chan_recv_none in Hrecv as (Hb & Hcl & ->).
      unfold inv; simpl. split; [done|]. split; [done|].
      destruct (producer s) as [i a b|].
      * destruct Hp as (_ & _ & _ & ? & _). congruence.
      * destruct Hp as (? & ? & _). done.
  - unfold fibonacci in Hstep.
    destruct (producer s) as [i a b|] eqn:Hprod; [|done].
    destruct Hp as (Hi & Ha & Hb & Hcl & Hr & Hl).
    destruct (Z.ltb_spec i n).
    + destruct (chan_send (ch s) a) eqn:Hs; try done. injection Hstep as <-.
      apply chan_send_ok in Hs as (_ & Hlt & ->).
      unfold inv; cbn [ch producer reader fibList buf cap closed].
      split; [done|].
      split; [rewrite length_app; simpl; lia|].
      rewrite (wrap_succ i n) by (done || lia).
      replace (Z.to_nat (i + 1)) with (S (Z.to_nat i)) by lia.
      split; [lia|]. split; [done|].
      split; [rewrite Ha, Hb, wrap_add, fib_SS; f_equal; lia|].
      split; [done|]. split; [done|].
      rewrite app_assoc, Hl, seq_S, fmap_app. simpl. by rewrite Ha.
    + destruct (chan_close (ch s)) eqn:Hc; try done. injection Hstep as <-.
      apply chan_close_ok in Hc as (_ & ->).
      unfold inv; simpl. split; [done|]. split; [done|]. split; [done|].
      split; [|congruence].
      rewrite Hl. do 2 f_equal. lia.
Qed.

Lemma generator_run_inv n size sched s s' :
  GoInt.in_range n → inv n size s → run n sched s = Ok s' → inv n size s'.
Proof.
  intros Hn. revert s. induction sched as [|a sched IH]; intros s Hinv; simpl.
  - by intros [= <-].
  - destruct (step n a s) as [s1| |] eqn:Hstep; try done.
    eauto using generator_step_inv.
Qed.

Lemma generator_step_fuel n size a s s' :
  GoInt.in_range n → inv n size s → step n a s = Ok s' →
  (fuel n s' < fuel n s)%nat.
Proof.
  intros Hn (Hcap & Hlen & Hp) Hstep. destruct a; simpl in Hstep.
  - unfold main_step in Hstep. destruct (reader s) eqn:Hr; [|done].
    destruct (chan_recv (ch s)) as [[[v|] c]| |] eqn:Hrecv; try done;
      injection Hstep as <-; unfold fuel; simpl; rewrite Hr.
    + apply chan_recv_some in Hrecv as (Hb & _). rewrite Hb. simpl. lia.
    + lia.
  - unfold fibonacci in Hstep.
    destruct (producer s) as [i a b|] eqn:Hprod; [|done].
    destruct Hp as (Hi & _).
    destruct (Z.ltb_spec i n).
    + destruct (chan_send (ch s) a) eqn:Hs; try done. injection Hstep as <-.
      apply chan_send_ok in Hs as (_ & _ & ->).
      unfold fuel; simpl. rewrite Hprod, length_app.
      rewrite (wrap_succ i n) by (done || lia). simpl. lia.
    + destruct (chan_close (ch s)) eqn:Hc; try done. injection Hstep as <-.
      apply chan_close_ok in Hc as (_ & ->).
      unfold fuel; simpl. rewrite Hprod. lia.
Qed.

Lemma generator_run_fuel n size sched s s' :
  GoInt.in_range n → inv n size s → run n sched s = Ok s' →
  (length sched + fuel n s' ≤ fuel n s)%nat.
Proof.
  intros Hn. revert s. induction sched as [|a sched IH]; intros s Hinv; simpl.
  - intros [= <-]. lia.
  - destruct (step n a s) as [s1| |] eqn:Hstep; try done.
    intros Hrun.
    pose proof (generator_step_fuel _ _ _ _ _ Hn Hinv Hstep).
    apply IH in Hrun; [lia|]. eauto using generator_step_inv.
Qed.

Lemma generator_no_panic n size a s msg :
  inv n size s → step n a s ≠ Panic msg.
Proof.
  intros (Hcap & Hlen & Hp). destruct a; simpl.
  - unfold main_step. destruct (reader s); [|done].
    destruct (chan_recv (ch s)) as [[[v|] c]| |] eqn:Hrecv; try done.
    by apply chan_recv_no_panic in Hrecv.
  - unfold fibonacci. destruct (producer s) as [i a b|]; [|done].
    destruct Hp as (_ & _ & _ & Hcl & _).
    destruct (i <? n).
    + destruct (chan_send (ch s) a) eqn:Hs; try done.
      apply chan_send_panic in Hs. congruence.
    + by rewrite chan_close_open.
Qed.

Lemma generator_progress n size s :
  inv n size s → 1 ≤ size → reader s ≠ RExit →
  ∃ a s', step n a s = Ok s'.
Proof.
  intros (Hcap & Hlen & Hp) Hsize Hr.
  destruct (reader s) eqn:Hreader; [|done].
  destruct (buf (ch s)) as [|v rest] eqn:Hb.
  - destruct (producer s) as [i a b|] eqn:Hprod.
    + destruct Hp as (_ & _ & _ & Hcl & _).
      exists Fib. simpl. unfold fibonacci. rewrite Hprod.
      destruct (i <? n).
      * rewrite chan_send_free; [eauto|done|]. rewrite Hb. simpl. lia.
      * rewrite chan_close_open by done. eauto.
    + destruct Hp as (Hcl & _).
      exists Main. simpl. unfold main_step, chan_recv.
      rewrite Hreader, Hb, Hcl. eauto.
  - exists Main. simpl. unfold main_step, chan_recv.
    rewrite Hreader, Hb. eauto.
Qed.

End GeneratorFacts.

(** X12.  The goroutine [fibonacci(n, ch)] and the loop of [main] that
    reads [ch], for every [n] and every buffer size of at least one:
    whatever the interleaving, no step panics, the program is never stuck
    before [main] has left its loop, it takes at most [2 * n + 2] steps,
    the channel never holds more than its capacity, what [main] has
    collected followed by what the channel holds is a prefix of the first
    [n] Fibonacci numbers on Go's [int], and when [main] leaves the loop
    [fibList] is the slice [Fibonacci(n)] of the first Go file. *)
Theorem fibonacci_channel (n size : Z) (s0 : Generator.state)
    (sched : list Generator.actor) (s : Generator.state) :
  GoInt.in_range n →
  (1 ≤ size)%Z →
  Generator.start size = Ok s0 →
  Generator.run n sched s0 = Ok s →
  length sched ≤ 2 * Z.to_nat n + 2
  ∧ (∀ a msg, Generator.step n a s ≠ Panic msg)
  ∧ (Generator.reader s ≠ Generator.RExit →
     ∃ a s', Generator.step n a s = Ok s')
  ∧ (Z.of_nat (length (buf (Generator.ch s))) ≤ size)%Z
  ∧ Generator.fibList s ++ buf (Generator.ch s)
    `prefix_of` (GoInt.wrap <$> first_fibonacci n)
  ∧ (Generator.reader s = Generator.RExit →
     Some (Generator.fibList s) = Go.Fibonacci n).
Proof.
  intros Hn Hsize Hstart Hrun.
  pose proof (generator_start_inv n _ _ Hstart) as Hinv0.
  pose proof (generator_run_inv _ _ _ _ _ Hn Hinv0 Hrun) as Hinv.
  split.
  { apply (generator_run_fuel _ _ _ _ _ Hn Hinv0) in Hrun.
    revert Hrun Hstart. unfold Generator.start.
    destruct (make_chan size) as [c| |] eqn:Hc; try done.
    apply make_chan_ok in Hc as [_ ->]. intros Hrun [= <-].
    unfold Generator.fuel in Hrun at 2. simpl in Hrun.
    rewrite Z.sub_0_r in Hrun. lia. }
  split; [eauto using generator_no_panic|].
  split; [eauto using generator_progress|].
  destruct Hinv as (Hcap & Hlen & Hp).
  split; [done|].
  rewrite go_fibonacci_wraps, first_fibonacci_seq, <- list_fmap_compose.
  destruct (Generator.producer s) as [i a b|].
  - destruct Hp as (Hi & _ & _ & _ & Hr & Hl). split; [|congruence].
    rewrite Hl.
    replace (Z.to_nat n) with (Z.to_nat i + (Z.to_nat n - Z.to_nat i)) by lia.
    rewrite seq_app, fmap_app. by apply prefix_app_r.
  - destruct Hp as (_ & Hl & Hb). split.
    + by rewrite Hl.
    + intros Hr. rewrite Hb in Hl by done. rewrite app_nil_r in Hl.
      by rewrite Hl.
Qed.

Lemma fibonacci_channel_witness :
  ∃ s0 s,
    Generator.start 10 = Ok s0
    ∧ Generator.run 10 (Generator.eager 10) s0 = Ok s
    ∧ Generator.reader s = Generator.RExit
    ∧ Generator.fibList s = [0; 1; 1; 2; 3; 5; 8; 13; 21; 34]%Z
    ∧ Some (Generator.fibList s) = Go.Fibonacci 10.
Proof.
  eexists _, _.
  split; [reflexivity|]. split; [vm_compute; reflexivity|].
  split; [reflexivity|]. split; [reflexivity|].
  refine (proj2 (proj2 (proj2 (proj2 (proj2
    (fibonacci_channel 10 10 _ (Generator.eager 10) _ _ _ _ _))))) _);
    [by vm_compute|lia|reflexivity|vm_compute; reflexivity|reflexivity].
Defined.

(** *** The counter behind its mutex *)

Lemma sum_list_with_lookup {A} (f : A → nat) (l : list A) i x :
  l !! i = Some x → f x ≤ sum_list_with f l.
Proof. intros Hi. apply sum_list_with_in. eauto using list_elem_of_lookup_2. Qed.

Lemma sum_list_with_lookup2 {A} (f : A → nat) (l : list A) i j x y :
  i ≠ j → l !! i = Some x → l !! j = Some y →
  f x + f y ≤ sum_list_with f l.
Proof.
  revert i j. induction l as [|z l IH]; intros [|i] [|j] Hne Hi Hj;
    simplify_eq/=.
  - pose proof (sum_list_with_lookup f _ _ _ Hj). lia.
  - pose proof (sum_list_with_lookup f _ _ _ Hi). lia.
  - assert (i ≠ j) as Hne' by congruence.
    pose proof (IH i j Hne' Hi Hj). lia.
Qed.

Lemma sum_list_with_pos {A} (f : A → nat) (l : list A) :
  0 < sum_list_with f l → ∃ i x, l !! i = Some x ∧ 0 < f x.
Proof.
  induction l as [|z l IH]; simpl; [lia|]. intros Hpos.
  destruct (decide (0 < f z)) as [Hz|Hz].
  - by exists 0, z.
  - destruct IH as (i & x & Hi & Hx); [lia|]. by exists (S i), x.
Qed.

Lemma sum_list_with_bound {A} (f : A → nat) (l : list A) :
  (∀ x, f x ≤ 1) → sum_list_with f l ≤ length l.
Proof.
  intros Hf. induction l as [|z l IH]; simpl; [lia|].
  pose proof (Hf z). lia.
Qed.

Section CounterFacts.

Import ConcurrentCounter.

Lemma stored_bound gs : sum_list_with stored gs ≤ length gs.
Proof. apply sum_list_with_bound. intros []; simpl; lia. Qed.

(** Goroutines that have returned have written. *)
Lemma stored_running gs :
  length gs ≤ sum_list_with stored gs + sum_list_with running gs.
Proof.
  induction gs as [|g gs IH]; simpl; [lia|]. destruct g; simpl; lia.
Qed.

Lemma goroutine_sums gs i g g' :
  gs !! i = Some g →
  sum_list_with stored (<[i := g']> gs) + stored g
  = sum_list_with stored gs + stored g'
  ∧ sum_list_with holds (<[i := g']> gs) + holds g
    = sum_list_with holds gs + holds g'
  ∧ sum_list_with running (<[i := g']> gs) + running g
    = sum_list_with running gs + running g'
  ∧ sum_list_with gweight (<[i := g']> gs) + gweight g
    = sum_list_with gweight gs + gweight g'
  ∧ length (<[i := g']> gs) = length gs.
Proof.
  intros Hg. rewrite length_insert.
  repeat split; by apply sum_list_with_insert.
Qed.

Lemma counter_start_inv n : inv n start.
Proof. constructor; simpl; try done. lia. Qed.

Lemma counter_main_inv n s s' :
  GoInt.in_range n → inv n s → main_step n s = Ok s' → inv n s'.
Proof.
  intros Hn [Hcount Hmutex Hstore Hwg Hmain]. unfold main_step.
  unfold in_critical_section in Hmutex.
  destruct (main_pc s) as [i|i| | | |v|v] eqn:Hpc; simpl in *.
  - destruct (Z.ltb_spec i n); intros [= <-];
      constructor; unfold in_critical_section; simpl; rewrite ?Hpc;
      simpl; auto; lia.
  - intros [= <-].
    constructor; unfold in_critical_section; simpl; rewrite ?Hpc; simpl.
    + rewrite sum_list_with_app. simpl. lia.
    + rewrite sum_list_with_app. simpl. lia.
    + intros j v [Hj|[_ Hj]]%lookup_app_Some; [eauto|].
      destruct (j - length (goroutines s)) as [|k]; simplify_eq/=.
    + rewrite sum_list_with_app. simpl. lia.
    + rewrite (wrap_succ i n) by (done || lia).
      rewrite length_app. simpl. lia.
  - destruct (wg s) eqn:Hw; [|done]. intros [= <-].
    constructor; unfold in_critical_section; simpl; rewrite ?Hpc;
      simpl; auto; lia.
  - unfold lock. destruct (mu s) eqn:Hmu; [done|]. intros [= <-].
    constructor; unfold in_critical_section; simpl; rewrite ?Hpc;
      simpl; auto; lia.
  - intros [= <-].
    constructor; unfold in_critical_section; simpl; rewrite ?Hpc;
      simpl; auto. tauto.
  - unfold unlock. destruct (mu s) eqn:Hmu; [|done]. intros [= <-].
    constructor; unfold in_critical_section; simpl; rewrite ?Hpc;
      simpl; auto; lia.
  - done.
Qed.

Lemma counter_goroutine_inv n i s s' :
  GoInt.in_range n → inv n s → goroutine i s = Ok s' → inv n s'.
Proof.
  intros Hn [Hcount Hmutex Hstore Hwg Hmain]. unfold goroutine.
  unfold in_critical_section in Hmutex.
  destruct (goroutines s !! i) as [g|] eqn:Hg; [|done].
  pose proof (sum_list_with_lookup running _ _ _ Hg) as Hrunning.
  pose proof (sum_list_with_lookup holds _ _ _ Hg) as Hholds.
  pose proof (stored_bound (goroutines s)) as Hbound.
  assert (length (goroutines s) ≤ Z.to_nat n) as Hlen.
  { destruct (main_pc s); lia. }
  destruct g as [| |v| | |]; simpl in *.
  - (* c.mu.Lock() *)
    unfold lock. destruct (mu s) eqn:Hmu; [done|]. intros [= <-].
    destruct (goroutine_sums _ i _ GLoad Hg) as (Hs & Hh & Hr & _ & Hl).
    simpl in *.
    constructor; unfold in_critical_section; simpl; rewrite ?Hl.
    + lia.
    + lia.
    + intros j v [(_ & ? & _)|[_ Hj]]%list_lookup_insert_Some; [done|eauto].
    + lia.
    + destruct (main_pc s); lia.
  - (* the read of c.count *)
    intros [= <-].
    destruct (goroutine_sums _ i _ (GStore (GoInt.add (count s) 1)) Hg)
      as (Hs & Hh & Hr & _ & Hl).
    simpl in *.
    assert (GoInt.add (count s) 1 = (count s + 1)%Z) as Hadd.
    { unfold GoInt.add. apply wrap_small.
      destruct (goroutine_sums _ i _ GUnlock Hg) as (Hs' & _ & _ & _ & Hl').
      pose proof (stored_bound (<[i := GUnlock]> (goroutines s))).
      simpl in *.
      unfold GoInt.in_range, GoInt.min_int, GoInt.max_int in *. lia. }
    constructor; unfold in_critical_section; simpl; rewrite ?Hl.
    + lia.
    + lia.
    + intros j v [(_ & [= <-] & _)|[_ Hj]]%list_lookup_insert_Some;
        [done|eauto].
    + lia.
    + destruct (main_pc s); lia.
  - (* the write of c.count *)
    intros [= <-].
    destruct (goroutine_sums _ i _ GUnlock Hg) as (Hs & Hh & Hr & _ & Hl).
    simpl in *.
    pose proof (Hstore _ _ Hg) as ->.
    constructor; unfold in_critical_section; simpl; rewrite ?Hl.
    + lia.
    + lia.
    + intros j v [(_ & ? & _)|[Hne Hj]]%list_lookup_insert_Some; [done|].
      pose proof (sum_list_with_lookup2 holds _ _ _ _ _ Hne Hg Hj).
      simpl in *. destruct (mu s); lia.
    + lia.
    + destruct (main_pc s); lia.
  - (* the deferred c.mu.Unlock() *)
    unfold unlock. destruct (mu s) eqn:Hmu; [|done]. intros [= <-].
    destruct (goroutine_sums _ i _ GDone Hg) as (Hs & Hh & Hr & _ & Hl).
    simpl in *.
    constructor; unfold in_critical_section; simpl; rewrite ?Hl.
    + lia.
    + lia.
    + intros j v [(_ & ? & _)|[_ Hj]]%list_lookup_insert_Some; [done|eauto].
    + lia.
    + destruct (main_pc s); lia.
  - (* the deferred wg.Done() *)
    unfold wg_done. destruct (wg s) as [|k] eqn:Hw; [done|]. intros [= <-].
    destruct (goroutine_sums _ i _ GReturned Hg) as (Hs & Hh & Hr & _ & Hl).
    simpl in *.
    constructor; unfold in_critical_section; simpl; rewrite ?Hl.
    + lia.
    + lia.
    + intros j v [(_ & ? & _)|[_ Hj]]%list_lookup_insert_Some; [done|eauto].
    + lia.
    + destruct (main_pc s); lia.
  - done.
Qed.

Lemma counter_step_inv n a s s' :
  GoInt.in_range n → inv n s → step n a s = Ok s' → inv n s'.
Proof.
  destruct a; simpl; eauto using counter_main_inv, counter_goroutine_inv.
Qed.

Lemma counter_run_inv n sched s s' :
  GoInt.in_range n → inv n s → run n sched s = Ok s' → inv n s'.
Proof.
  intros Hn. revert s. induction sched as [|a sched IH]; intros s Hinv; simpl.
  - by intros [= <-].
  - destruct (step n a s) as [s1| |] eqn:Hstep; try done.
    eauto using counter_step_inv.
Qed.

Lemma counter_step_fuel n a s s' :
  GoInt.in_range n → inv n s → step n a s = Ok s' → fuel n s' < fuel n s.
Proof.
  intros Hn [Hcount Hmutex Hstore Hwg Hmain]. unfold fuel.
  destruct a as [|i]; simpl.
  - unfold main_step, lock, unlock.
    destruct (main_pc s) as [i|i| | | |v|v] eqn:Hpc; simpl in *.
    + destruct (Z.ltb_spec i n); intros [= <-]; simpl; lia.
    + intros [= <-]. simpl. rewrite sum_list_with_app. simpl.
      rewrite (wrap_succ i n) by (done || lia). lia.
    + destruct (wg s); [|done]. intros [= <-]. simpl. lia.
    + destruct (mu s); [done|]. intros [= <-]. simpl. lia.
    + intros [= <-]. simpl. lia.
    + destruct (mu s); [|done]. intros [= <-]. simpl. lia.
    + done.
  - unfold goroutine, lock, unlock, wg_done.
    destruct (goroutines s !! i) as [g|] eqn:Hg; [|done].
    destruct g as [| |v| | |]; simpl.
    + destruct (mu s); [done|]. intros [= <-]. simpl.
      destruct (goroutine_sums _ i _ GLoad Hg) as (_ & _ & _ & Hw & _).
      simpl in *. lia.
    + intros [= <-]. simpl.
      destruct (goroutine_sums _ i _ (GStore (GoInt.add (count s) 1)) Hg)
        as (_ & _ & _ & Hw & _).
      simpl in *. lia.
    + intros [= <-]. simpl.
      destruct (goroutine_sums _ i _ GUnlock Hg) as (_ & _ & _ & Hw & _).
      simpl in *. lia.
    + destruct (mu s); [|done]. intros [= <-]. simpl.
      destruct (goroutine_sums _ i _ GDone Hg) as (_ & _ & _ & Hw & _).
      simpl in *. lia.
    + destruct (wg s); [done|]. intros [= <-]. simpl.
      destruct (goroutine_sums _ i _ GReturned Hg) as (_ & _ & _ & Hw & _).
      simpl in *. lia.
    + done.
Qed.

Lemma counter_run_fuel n sched s s' :
  GoInt.in_range n → inv n s → run n sched s = Ok s' →
  length sched + fuel n s' ≤ fuel n s.
Proof.
  intros Hn. revert s. induction sched as [|a sched IH]; intros s Hinv; simpl.
  - intros [= <-]. lia.
  - destruct (step n a s) as [s1| |] eqn:Hstep; try done.
    intros Hrun.
    pose proof (counter_step_fuel _ _ _ _ Hn Hinv Hstep).
    apply IH in Hrun; [lia|]. eauto using counter_step_inv.
Qed.

Lemma counter_no_panic n a s msg : inv n s → step n a s ≠ Panic msg.
Proof.
  intros [Hcount Hmutex Hstore Hwg Hmain].
  unfold in_critical_section in Hmutex.
  destruct a as [|i]; simpl.
  - unfold main_step, lock, unlock.
    destruct (main_pc s) as [i|i| | | |v|v] eqn:Hpc; simpl in *; try done.
    + by destruct (i <? n)%Z.
    + by destruct (wg s).
    + by destruct (mu s).
    + destruct (mu s); [done|lia].
  - unfold goroutine, lock, unlock, wg_done.
    destruct (goroutines s !! i) as [g|] eqn:Hg; [|done].
    pose proof (sum_list_with_lookup running _ _ _ Hg) as Hrunning.
    pose proof (sum_list_with_lookup holds _ _ _ Hg) as Hholds.
    destruct g as [| |v| | |]; simpl in *; try done.
    + by destruct (mu s).
    + destruct (mu s); [done|lia].
    + destruct (wg s); [lia|done].
Qed.

Lemma counter_progress n s :
  inv n s → (∀ v, main_pc s ≠ MPrint v) → ∃ a s', step n a s = Ok s'.
Proof.
  intros [Hcount Hmutex Hstore Hwg Hmain] Hpc.
  unfold in_critical_section in Hmutex.
  assert (∀ i g, goroutines s !! i = Some g → holds g = 1 →
                 ∃ s', goroutine i s = Ok s') as Hholder.
  { intros i g Hg Hh.
    pose proof (sum_list_with_lookup holds _ _ _ Hg) as Hholds.
    unfold goroutine, unlock. rewrite Hg.
    destruct g; simplify_eq/=; eauto.
    destruct (mu s); [eauto|lia]. }
  destruct (main_pc s) as [i|i| | | |v|v] eqn:Hm; simpl in *.
  - exists Main. simpl. unfold main_step. rewrite Hm.
    destruct (i <? n)%Z; eauto.
  - exists Main. simpl. unfold main_step. rewrite Hm. eauto.
  - destruct (wg s) as [|k] eqn:Hw.
    { exists Main. simpl. unfold main_step. rewrite Hm, Hw. eauto. }
    destruct (sum_list_with_pos running (goroutines s))
      as (i & g & Hg & Hr); [lia|].
    destruct (mu s) eqn:Hmu.
    + destruct (sum_list_with_pos holds (goroutines s))
        as (j & h & Hj & Hh); [lia|].
      destruct (Hholder j h Hj) as [s' Hs'];
        [destruct h; simpl in *; lia|].
      by exists (Goroutine j), s'.
    + exists (Goroutine i). simpl. unfold goroutine, lock, unlock, wg_done.
      rewrite Hg, ?Hmu, ?Hw.
      pose proof (sum_list_with_lookup holds _ _ _ Hg) as Hholds.
      destruct g; simpl in *; eauto; lia.
  - exists Main. simpl. unfold main_step, lock. rewrite Hm.
    destruct (mu s) eqn:Hmu; [|eauto].
    destruct (sum_list_with_pos holds (goroutines s))
      as (j & h & Hj & Hh); [lia|].
    pose proof (sum_list_with_lookup running _ _ _ Hj) as Hrunning.
    destruct h; simpl in *; lia.
  - exists Main. simpl. unfold main_step. rewrite Hm. eauto.
  - exists Main. simpl. unfold main_step, unlock. rewrite Hm.
    destruct (mu s); [eauto|lia].
  - by destruct (Hpc v).
Qed.

End CounterFacts.

(** X13.  The counter of the first Go file, with the 100 of the loop
    as the argument [n]: [main] starts [n] goroutines that each call
    [Increment], waits for them and prints [Value()].  Whatever the
    interleaving, at most one goroutine is between a [Lock] and its
    [Unlock], no step panics, the program is never stuck before [main]
    has its value, it takes at most [7 * n + 5] steps, [c.count] is never
    more than the number of goroutines started, and the value [main]
    gets is [n] ([0] for a negative [n]): no increment is lost. *)
Theorem counter_value (n : Z) (sched : list ConcurrentCounter.actor)
    (s : ConcurrentCounter.state) :
  GoInt.in_range n →
  ConcurrentCounter.run n sched ConcurrentCounter.start = Ok s →
  length sched ≤ 7 * Z.to_nat n + 5
  ∧ ConcurrentCounter.in_critical_section s ≤ 1
  ∧ (∀ a msg, ConcurrentCounter.step n a s ≠ Panic msg)
  ∧ ((∀ v, ConcurrentCounter.main_pc s ≠ ConcurrentCounter.MPrint v) →
     ∃ a s', ConcurrentCounter.step n a s = Ok s')
  ∧ (0 ≤ ConcurrentCounter.count s
     ≤ Z.of_nat (length (ConcurrentCounter.goroutines s)))%Z
  ∧ (∀ v, ConcurrentCounter.main_pc s = ConcurrentCounter.MPrint v →
     v = Z.max 0 n ∧ ConcurrentCounter.count s = Z.max 0 n).
Proof.
  intros Hn Hrun.
  pose proof (counter_start_inv n) as Hinv0.
  pose proof (counter_run_inv _ _ _ _ Hn Hinv0 Hrun) as Hinv.
  split.
  { apply (counter_run_fuel _ _ _ _ Hn Hinv0) in Hrun.
    unfold ConcurrentCounter.fuel in Hrun at 2. simpl in Hrun.
    rewrite Z.sub_0_r in Hrun. lia. }
  split.
  { destruct Hinv as [_ Hmutex _ _ _]. rewrite Hmutex.
    destruct (ConcurrentCounter.mu s); lia. }
  split; [eauto using counter_no_panic|].
  split; [eauto using counter_progress|].
  destruct Hinv as [Hcount _ _ Hwg Hmain].
  pose proof (stored_bound (ConcurrentCounter.goroutines s)).
  split; [lia|].
  intros v Hpc. rewrite Hpc in Hmain, Hwg.
  destruct Hmain as (Hlen & Hw & ->).
  pose proof (stored_running (ConcurrentCounter.goroutines s)).
  lia.
Qed.

Lemma counter_value_witness :
  ∃ s,
    ConcurrentCounter.run 2 ConcurrentCounter.reversed
      ConcurrentCounter.start = Ok s
    ∧ length ConcurrentCounter.reversed = 19
    ∧ ConcurrentCounter.main_pc s = ConcurrentCounter.MPrint 2
    ∧ (2%Z = Z.max 0 2 ∧ ConcurrentCounter.count s = Z.max 0 2).
Proof.
  eexists.
  split; [vm_compute; reflexivity|].
  split; [reflexivity|]. split; [reflexivity|].
  refine (proj2 (proj2 (proj2 (proj2 (proj2
    (counter_value 2 ConcurrentCounter.reversed _ _ _))))) 2%Z _);
    [by vm_compute|vm_compute; reflexivity|reflexivity].
Defined.
